(** * cpp-utils [parallell.hpp]: the async/finish barrier, verified

    A shallow embedding of [src/include/parallell.hpp]: the release token
    [scope_waiter], the finish barrier [synched_t], the task wrappers
    ([contended_caller], [simple_caller], the two [forwarded_callable]
    classes), the tuple expansion [apply_obj_func::applyTuple] and the
    submission entry points [parallel] and [async].

    Modelling choices.
    - Barriers live in a store indexed by address; a token holds the address
      of the barrier whose [m_sem] it references ([sem_t& mr_sem]), so two
      tokens built from the same barrier alias one semaphore.
    - [sem_t] is the POSIX counting semaphore: a natural number;
      [sem_wait] takes one and blocks at zero, [sem_post] adds one and
      never blocks.  At [SEM_VALUE_MAX] the POSIX [sem_post] fails with
      [EOVERFLOW] and adds nothing, and the source does not look at its
      result.  [sem_post] is the call below that capacity and the first
      part of the development is stated over it; [sem_post_posix] is the
      call with its capacity, and what depends on the number of signals a
      semaphore can hold is stated over it.  [EINTR] is not modelled.
    - [m_count] is [tbb::atomic<unsigned int>]: an integer in [0, 2^32) whose
      increment wraps around.
    - Using a barrier that is not in the store (a dangling reference) is
      undefined in C++; the operations return [None] there.
    - The executor (TBB) is outside the repository.  [tbb::task::spawn] puts
      the task wrapper in a pool; an executor step takes any pooled task,
      calls [execute] and frees the wrapper, which destroys its members.
      The spec promises that freeing after [execute] returns.  [run_task]
      frees the wrapper however [execute] ended; [executor_step] is the
      step for a call that returned, and [executor_step_raised] leaves
      open what the executor does with a wrapper whose call raised.
      Submitting a task and running one are single steps of a schedule.
    - [register_lock] returns its token by value and the wrappers
      initialise their member from that value; the temporaries are elided,
      as C++17 requires and earlier compilers do, so a registration creates
      one token instance.
    - Callables are functions on the state they act on, which return or
      raise; they do not touch barriers themselves.
    - Every primitive appends an event to a log, so that "how many" and
      "in which order" can be stated about runs. *)

From Stdlib Require Import ZArith List Lia.
From stdpp Require Import base option list gmap.

(** ** Machine integers *)

Definition UINT_MODULUS : Z := (2 ^ 32)%Z.

(** [unsigned int] arithmetic: results are reduced modulo [2^32]. *)
Definition wrap (z : Z) : Z := (z mod UINT_MODULUS)%Z.

(** ** The data model *)

Definition loc := positive.

(** [struct synched_t]: [sem_t m_sem; tbb::atomic<unsigned int> m_count]. *)
Record synched_t := Synched { m_sem : nat; m_count : Z }.

(** [struct scope_waiter]: [sem_t& mr_sem], the address of the owning barrier. *)
Record scope_waiter := ScopeWaiter { mr_sem : loc }.

Inductive event :=
| EvRegister (l : loc)        (* [m_count++] in [register_lock] *)
| EvPost (l : loc)            (* [sem_post] *)
| EvWait (l : loc)            (* a completed [sem_wait] *)
| EvReset (l : loc)           (* [m_count = 0] in [wait_for_all] *)
| EvSpawn (l : option loc)    (* [tbb::task::spawn], with the barrier of the wrapper's token *)
| EvCall (raised : bool).     (* the callable was invoked, and whether it raised *)

#[global] Instance event_eq_dec : EqDecision event.
Proof. solve_decision. Defined.

#[global] Instance scope_waiter_eq_dec : EqDecision scope_waiter.
Proof. solve_decision. Defined.

(** Number of occurrences of an event in a log. *)
Definition occ (e : event) (log : list event) : nat :=
  length (filter (λ x, x = e) log).

(** ** Semaphore primitives *)

(** [sem_post] on a semaphore below its capacity: one more signal.  (At
    [SEM_VALUE_MAX] the call adds nothing; [sem_post_posix] has that
    case.) *)
Definition sem_post (b : synched_t) : synched_t :=
  Synched (S (m_sem b)) (m_count b).

(** [sem_wait]: [None] when the caller has to block. *)
Definition sem_wait (b : synched_t) : option synched_t :=
  match m_sem b with
  | O => None
  | S n => Some (Synched n (m_count b))
  end.

(** ** Argument binding: [apply_obj_func<N>::applyTuple] *)

Section ApplyTuple.
Context {A R : Type}.

(** A [std::tuple] and an argument pack are lists over the type [A] of
    argument values (a sum type where the components differ in type).

    [apply_obj_func<N>::applyTuple(f, t, args...)]: for [N > 0] prepend
    [std::get<N-1>(t)] to the pack and recurse at [N-1]; at [0] call
    [f(args...)].  [std::get] out of range does not compile: [None]. *)
Fixpoint applyTuple (N : nat) (f : list A → R) (t : list A) (args : list A)
  : option R :=
  match N with
  | O => Some (f args)
  | S n => x ← t !! n; applyTuple n f t (x :: args)
  end.
End ApplyTuple.

(** ** Callables

    A callable is run for its effect on the state it sees; it ends by
    returning or by raising an exception, and leaves a state either way. *)
Inductive outcome (U : Type) :=
| Returned (u : U)
| Raised (u : U).

Arguments Returned {U} u.
Arguments Raised {U} u.

Definition state_of {U : Type} (o : outcome U) : U :=
  match o with Returned u | Raised u => u end.

Definition has_raised {U : Type} (o : outcome U) : bool :=
  match o with Returned _ => false | Raised _ => true end.

(** ** Task wrappers, barrier operations and submission *)

Section Parallel.
(** [U]: the state the callables act on (shared variables, I/O);
    [A]: the values forwarded as arguments. *)
Context {U A : Type}.

(** The four classes derived from [tbb::task]. *)
Inductive task :=
| contended_caller (m_sw : scope_waiter) (m_func : U → outcome U)
| simple_caller (m_func : U → outcome U)
| forwarded_callable_sw
    (m_parameters : list A) (m_function : list A → U → outcome U) (m_sw : scope_waiter)
| forwarded_callable (m_parameters : list A) (m_function : list A → U → outcome U).

Record world := World {
  heap : gmap loc synched_t;   (* the live barriers *)
  pool : list task;            (* spawned, not yet executed *)
  user : U;                    (* what the callables see *)
  log : list event
}.

Definition emit (e : event) (w : world) : world :=
  World (heap w) (pool w) (user w) (log w ++ [e]).

Definition set_barrier (l : loc) (b : synched_t) (w : world) : world :=
  World (<[l := b]> (heap w)) (pool w) (user w) (log w).

(** *** [scope_waiter] *)

(** [scope_waiter(sem_t& futex)]. *)
Definition scope_waiter_new (futex : loc) : scope_waiter := ScopeWaiter futex.


(** [~scope_waiter()]: [sem_post(&mr_sem)]. *)
Definition scope_waiter_destroy (t : scope_waiter) (w : world) : option world :=
  b ← heap w !! mr_sem t;
  Some (emit (EvPost (mr_sem t)) (set_barrier (mr_sem t) (sem_post b) w)).

(** *** [synched_t] *)

(** [synched_t()]: [m_count = 0; sem_init(&m_sem, 0, 0)], at address [this]. *)
Definition synched_new (this : loc) (w : world) : world :=
  set_barrier this (Synched 0 0) w.

(** [register_lock()]: [m_count++; return scope_waiter(m_sem)]. *)
Definition register_lock (this : loc) (w : world)
  : option (scope_waiter * world) :=
  b ← heap w !! this;
  Some (scope_waiter_new this,
        emit (EvRegister this)
          (set_barrier this (Synched (m_sem b) (wrap (m_count b + 1))) w)).

(** *** Task wrappers *)

(** [execute()] of each wrapper: the callable is invoked, nothing else; an
    exception of the callable leaves [execute] as it came, there is no
    handler. *)
Definition execute (t : task) (u : U) : option (outcome U) :=
  match t with
  | contended_caller _ m_func => Some (m_func u)
  | simple_caller m_func => Some (m_func u)
  | forwarded_callable_sw m_parameters m_function _ =>
      g ← applyTuple (length m_parameters) m_function m_parameters []; Some (g u)
  | forwarded_callable m_parameters m_function =>
      g ← applyTuple (length m_parameters) m_function m_parameters []; Some (g u)
  end.

(** The token member of a wrapper, if it has one. *)
Definition token_of (t : task) : option scope_waiter :=
  match t with
  | contended_caller m_sw _ => Some m_sw
  | forwarded_callable_sw _ _ m_sw => Some m_sw
  | simple_caller _ | forwarded_callable _ _ => None
  end.

(** Destruction of a wrapper destroys its members. *)
Definition task_destroy (t : task) (w : world) : option world :=
  match token_of t with
  | Some sw => scope_waiter_destroy sw w
  | None => Some w
  end.

(** [tbb::task::spawn]. *)
Definition spawn (t : task) (w : world) : world :=
  emit (EvSpawn (mr_sem <$> token_of t))
    (World (heap w) (pool w ++ [t]) (user w) (log w)).

(** *** [struct parallel] (first header, namespace [cpp_utils]) *)

(** [parallel(synched_t& sb, function_t func)]: the member [m_sw] of
    [contended_caller] is initialised by [sb.register_lock()]. *)
Definition parallel_sb (sb : loc) (func : U → outcome U) (w : world) : option world :=
  '(sw, w1) ← register_lock sb w;
  Some (spawn (contended_caller sw func) w1).

(** [parallel(function_t func)]. *)
Definition parallel_fn (func : U → outcome U) (w : world) : option world :=
  Some (spawn (simple_caller func) w).

(** [parallel(synched_t& sb, function_t f, parameters... params)]:
    members are initialised in declaration order, [m_parameters],
    [m_function], then [m_sw(sb.register_lock())]. *)
Definition parallel_sb_args (sb : loc) (f : list A → U → outcome U) (params : list A)
    (w : world) : option world :=
  '(sw, w1) ← register_lock sb w;
  Some (spawn (forwarded_callable_sw params f sw) w1).

(** [parallel(function_t f, parameters... params)]. *)
Definition parallel_fn_args (f : list A → U → outcome U) (params : list A) (w : world)
  : option world :=
  Some (spawn (forwarded_callable params f) w).

(** *** [struct async] (second header, global namespace)

    The second header declares [scope_waiter], [synched_t],
    [contended_caller], [simple_caller] and [apply_obj_func] again, token
    for token as in the first; the definitions above embed both. *)

(** [async(synched_t& sb, function_t func)]. *)
Definition async_sb (sb : loc) (func : U → outcome U) (w : world) : option world :=
  '(sw, w1) ← register_lock sb w;
  Some (spawn (contended_caller sw func) w1).

(** [async(function_t func)]. *)
Definition async_fn (func : U → outcome U) (w : world) : option world :=
  Some (spawn (simple_caller func) w).

(** [async(synched_t& sb, function_t f, parameters... params)]. *)
Definition async_sb_args (sb : loc) (f : list A → U → outcome U) (params : list A)
    (w : world) : option world :=
  '(sw, w1) ← register_lock sb w;
  Some (spawn (forwarded_callable_sw params f sw) w1).

(** [async(function_t f, parameters... params)]. *)
Definition async_fn_args (f : list A → U → outcome U) (params : list A) (w : world)
  : option world :=
  Some (spawn (forwarded_callable params f) w).


(** ** The threads

    A run of the program interleaves three kinds of steps: a submitting
    thread calls an entry point, the executor runs a pooled task, and the
    thread that owns the barrier advances inside [wait_for_all] (or inside
    the destructor). *)

(** Control points of [wait_for_all]:
    [Test i] is about to evaluate [i < m_count], [Wait i] is about to call
    [sem_wait] in iteration [i], [Reset] is about to store [m_count = 0]. *)
Inductive pc := Idle | Test (i : Z) | Wait (i : Z) | Reset | Done.

(** One step of [wait_for_all()] on the barrier at [this].  [None] at
    [Wait i] with an empty semaphore: the caller is blocked in [sem_wait].
    The loop bound [m_count] is read again at every test. *)
Definition wait_for_all_step (this : loc) (s : pc * world) : option (pc * world) :=
  let w := s.2 in
  match s.1 with
  | Idle => Some (Test 0, w)
  | Test i =>
      b ← heap w !! this;
      Some (if (i <? m_count b)%Z then Wait i else Reset, w)
  | Wait i =>
      b ← heap w !! this;
      b' ← sem_wait b;
      Some (Test (wrap (i + 1)), emit (EvWait this) (set_barrier this b' w))
  | Reset =>
      b ← heap w !! this;
      Some (Done, emit (EvReset this) (set_barrier this (Synched (m_sem b) 0) w))
  | Done => None
  end.

(** Control points of [~synched_t()]: the body is the single statement
    [wait_for_all();], after which the object is gone. *)
Inductive dpc := DLive | DWaiting (p : pc) | DGone.

Definition synched_destroy_step (this : loc) (s : dpc * world)
  : option (dpc * world) :=
  let w := s.2 in
  match s.1 with
  | DLive => Some (DWaiting Idle, w)
  | DWaiting Done =>
      Some (DGone, World (delete this (heap w)) (pool w) (user w) (log w))
  | DWaiting p =>
      '(p', w') ← wait_for_all_step this (p, w); Some (DWaiting p', w')
  | DGone => None
  end.

(** The four call shapes of the submission API. *)
Inductive submission :=
| SubSb (sb : loc) (func : U → outcome U)
| SubFn (func : U → outcome U)
| SubSbArgs (sb : loc) (f : list A → U → outcome U) (params : list A)
| SubFnArgs (f : list A → U → outcome U) (params : list A).

Definition submit_parallel (s : submission) (w : world) : option world :=
  match s with
  | SubSb sb func => parallel_sb sb func w
  | SubFn func => parallel_fn func w
  | SubSbArgs sb f params => parallel_sb_args sb f params w
  | SubFnArgs f params => parallel_fn_args f params w
  end.

Definition submit_async (s : submission) (w : world) : option world :=
  match s with
  | SubSb sb func => async_sb sb func w
  | SubFn func => async_fn func w
  | SubSbArgs sb f params => async_sb_args sb f params w
  | SubFnArgs f params => async_fn_args f params w
  end.

(** The barrier a submission is tracked by. *)
Definition barrier_of (s : submission) : option loc :=
  match s with
  | SubSb sb _ | SubSbArgs sb _ _ => Some sb
  | SubFn _ | SubFnArgs _ _ => None
  end.

(** Modelled from the spec: the executor is not part of the repository; it
    "takes ownership (frees it after execution)" of the unit of work.

    The executor takes the [k]-th pooled task, calls [execute] and frees
    the wrapper.  This step frees the wrapper of a call that raised as it
    frees that of a call that returned, which the spec does not promise;
    [executor_step] and [executor_step_raised] separate the two cases. *)
Definition run_task (k : nat) (w : world) : option world :=
  t ← pool w !! k;
  o ← execute t (user w);
  task_destroy t
    (World (heap w) (delete k (pool w)) (state_of o)
       (log w ++ [EvCall (has_raised o)])).

Inductive label :=
| LSubmit (s : submission)
| LRun (k : nat)
| LThread.

(** One step of the whole system, for a barrier-owning thread [thr]. *)
Definition sys_step {T : Type} (thr : T * world → option (T * world))
    (l : label) (s : T * world) : option (T * world) :=
  match l with
  | LSubmit sub => w' ← submit_parallel sub s.2; Some (s.1, w')
  | LRun k => w' ← run_task k s.2; Some (s.1, w')
  | LThread => thr s
  end.

Fixpoint sys_run {T : Type} (thr : T * world → option (T * world))
    (ls : list label) (s : T * world) : option (T * world) :=
  match ls with
  | [] => Some s
  | l :: ls' => s' ← sys_step thr l s; sys_run thr ls' s'
  end.

(** [registers_on this l]: the step calls [register_lock] on [this]. *)
Definition registers_on (this : loc) (l : label) : bool :=
  match l with
  | LSubmit sub => bool_decide (barrier_of sub = Some this)
  | _ => false
  end.

(** A schedule during which nobody submits against [this]. *)
Definition quiet (this : loc) (ls : list label) : bool :=
  forallb (λ l, negb (registers_on this l)) ls.

(** A schedule of the submitting threads and the executor only. *)
Definition no_thread (ls : list label) : bool :=
  forallb (λ l, match l with LThread => false | _ => true end) ls.

(** Number of calls of [register_lock] on [this] in a schedule. *)
Definition registrations (this : loc) (ls : list label) : nat :=
  length (filter (λ l, registers_on this l = true) ls).

(** Pooled tasks that still hold a token of the barrier at [this]. *)
Definition outstanding (this : loc) (p : list task) : nat :=
  length (filter (λ t, token_of t = Some (ScopeWaiter this)) p).

End Parallel.

#[global] Instance pc_eq_dec : EqDecision pc.
Proof. solve_decision. Defined.

Arguments task : clear implicits.
Arguments world : clear implicits.
Arguments submission : clear implicits.
Arguments label : clear implicits.

(** ** The semaphore with its capacity, and the executor as the spec has it

    [sem_post] above is the increment below the capacity of the semaphore,
    and [run_task] frees a wrapper whichever way its [execute] ended.  The
    definitions of this part follow POSIX and the spec to the letter; the
    properties that depend on how many signals a semaphore can hold, or on
    what happens to a wrapper, are stated over them. *)

(** [SEM_VALUE_MAX] of [<limits.h>], the largest value of a [sem_t] (the
    value of glibc, [INT_MAX]). *)
Definition SEM_VALUE_MAX : Z := 2147483647%Z.

(** POSIX [sem_post]: at [SEM_VALUE_MAX] the call fails with [EOVERFLOW]
    and leaves the semaphore as it is.  [~scope_waiter] does not look at
    the result, so that signal is lost. *)
Definition sem_post_posix (b : synched_t) : synched_t :=
  if (Z.of_nat (m_sem b) <? SEM_VALUE_MAX)%Z
  then Synched (S (m_sem b)) (m_count b)
  else b.

Section Executor.
Context {U A : Type}.

(** [~scope_waiter()]: [sem_post(&mr_sem)], result ignored. *)
Definition scope_waiter_release (t : scope_waiter) (w : world U A)
  : option (world U A) :=
  b ← heap w !! mr_sem t;
  Some (emit (EvPost (mr_sem t)) (set_barrier (mr_sem t) (sem_post_posix b) w)).

(** Destruction of a wrapper destroys its members. *)
Definition task_release (t : task U A) (w : world U A) : option (world U A) :=
  match token_of t with
  | Some sw => scope_waiter_release sw w
  | None => Some w
  end.

(** Modelled from the spec: the executor "is responsible for freeing it
    after [execute] returns".

    The executor takes the [k]-th pooled task and calls [execute]; when
    the call has returned it frees the wrapper.  For a call that raised
    the spec gives no rule, and this step is undefined. *)
Definition executor_step (k : nat) (w : world U A) : option (world U A) :=
  t ← pool w !! k;
  o ← execute t (user w);
  match o with
  | Returned u =>
      task_release t
        (World (heap w) (delete k (pool w)) u (log w ++ [EvCall false]))
  | Raised _ => None
  end.


(** One step of the whole system over these definitions. *)
Definition posix_step {T : Type} (thr : T * world U A → option (T * world U A))
    (l : label U A) (s : T * world U A) : option (T * world U A) :=
  match l with
  | LSubmit sub => w' ← submit_parallel sub s.2; Some (s.1, w')
  | LRun k => w' ← executor_step k s.2; Some (s.1, w')
  | LThread => thr s
  end.

Fixpoint posix_run {T : Type} (thr : T * world U A → option (T * world U A))
    (ls : list (label U A)) (s : T * world U A) : option (T * world U A) :=
  match ls with
  | [] => Some s
  | l :: ls' => s' ← posix_step thr l s; posix_run thr ls' s'
  end.

End Executor.

(** ** What a run shows of one barrier

    The state of the barrier at [this] together with the number of pooled
    tokens that reference it and the number of its events so far. *)
Record view := View {
  v_sem : nat;        (* value of [m_sem] *)
  v_count : Z;        (* value of [m_count] *)
  v_out : nat;        (* pooled wrappers holding a token of this barrier *)
  v_reg : nat;        (* calls of [register_lock] *)
  v_post : nat;       (* [sem_post]s *)
  v_wait : nat;       (* completed [sem_wait]s *)
  v_reset : nat       (* completed [wait_for_all]s *)
}.

Definition view_of {U A : Type} (this : loc) (w : world U A) : option view :=
  b ← heap w !! this;
  Some (View (m_sem b) (m_count b) (outstanding this (pool w))
          (occ (EvRegister this) (log w)) (occ (EvPost this) (log w))
          (occ (EvWait this) (log w)) (occ (EvReset this) (log w))).

(** The invariant of a wait that started in view [v0] and during which
    nobody registers: the loop counter equals the number of decrements done,
    the bound is still the initial count, and the semaphore holds the
    signals received and not yet consumed. *)
Definition wait_inv (v0 : view) (p : pc) (v : view) : Prop :=
  v_reg v = v_reg v0
  ∧ v_post v + v_out v = v_post v0 + v_out v0
  ∧ v_sem v + v_wait v + v_post v0 = v_sem v0 + v_wait v0 + v_post v
  ∧ match p with
    | Idle => v_count v = v_count v0 ∧ v_wait v = v_wait v0 ∧ v_reset v = v_reset v0
    | Test i =>
        v_count v = v_count v0 ∧ (0 ≤ i ≤ v_count v0)%Z
        ∧ Z.of_nat (v_wait v) = (Z.of_nat (v_wait v0) + i)%Z
        ∧ v_reset v = v_reset v0
    | Wait i =>
        v_count v = v_count v0 ∧ (0 ≤ i < v_count v0)%Z
        ∧ Z.of_nat (v_wait v) = (Z.of_nat (v_wait v0) + i)%Z
        ∧ v_reset v = v_reset v0
    | Reset =>
        v_count v = v_count v0
        ∧ Z.of_nat (v_wait v) = (Z.of_nat (v_wait v0) + v_count v0)%Z
        ∧ v_reset v = v_reset v0
    | Done =>
        v_count v = 0%Z
        ∧ Z.of_nat (v_wait v) = (Z.of_nat (v_wait v0) + v_count v0)%Z
        ∧ v_reset v = S (v_reset v0)
    end.

(** What the thread still needs at each control point. *)
Definition enough (p : pc) (b : synched_t) : Prop :=
  match p with
  | Idle => (m_count b ≤ Z.of_nat (m_sem b))%Z
  | Test i => (0 ≤ i ≤ m_count b)%Z ∧ (m_count b - i ≤ Z.of_nat (m_sem b))%Z
  | Wait i => (0 ≤ i < m_count b)%Z ∧ (m_count b - i ≤ Z.of_nat (m_sem b))%Z
  | Reset | Done => True
  end.

(** The number of values of an [unsigned int], as a number of calls. *)
Definition UINT_RANGE : nat := Z.to_nat UINT_MODULUS.

(** The same invariant seen from the destructor: it holds until the object
    is gone. *)
Definition dtor_inv {U A : Type} (this : loc) (v0 : view) (d : dpc)
    (w : world U A) : Prop :=
  match d with
  | DLive => ∃ v, view_of this w = Some v ∧ wait_inv v0 Idle v
  | DWaiting p => ∃ v, view_of this w = Some v ∧ wait_inv v0 p v
  | DGone => True
  end.

(** What every step keeps of a barrier, whoever takes it: the events only
    accumulate, every registration is a pooled token or a signal sent, and
    every signal sent is in the semaphore or was consumed by a wait. *)
Definition conserved (v v' : view) : Prop :=
  v_reg v ≤ v_reg v' ∧ v_post v ≤ v_post v' ∧ v_wait v ≤ v_wait v'
  ∧ v_reset v ≤ v_reset v'
  ∧ v_post v' + v_out v' + v_reg v = v_post v + v_out v + v_reg v'
  ∧ v_sem v' + v_wait v' + v_post v = v_sem v + v_wait v + v_post v'.

(** The invariant of a wait that started in view [v0] while submitters may
    still register: the counter has grown by the registrations made since,
    and the loop has consumed at most that. *)
Definition race_inv (v0 : view) (p : pc) (v : view) : Prop :=
  conserved v0 v
  ∧ match p with
    | Idle =>
        v_count v = (v_count v0 + Z.of_nat (v_reg v - v_reg v0))%Z
        ∧ v_wait v = v_wait v0 ∧ v_reset v = v_reset v0
    | Test i =>
        v_count v = (v_count v0 + Z.of_nat (v_reg v - v_reg v0))%Z
        ∧ (0 ≤ i ≤ v_count v)%Z
        ∧ Z.of_nat (v_wait v) = (Z.of_nat (v_wait v0) + i)%Z
        ∧ v_reset v = v_reset v0
    | Wait i =>
        v_count v = (v_count v0 + Z.of_nat (v_reg v - v_reg v0))%Z
        ∧ (0 ≤ i < v_count v)%Z
        ∧ Z.of_nat (v_wait v) = (Z.of_nat (v_wait v0) + i)%Z
        ∧ v_reset v = v_reset v0
    | Reset =>
        v_count v = (v_count v0 + Z.of_nat (v_reg v - v_reg v0))%Z
        ∧ (Z.of_nat (v_wait v0) + v_count v0 ≤ Z.of_nat (v_wait v)
           ≤ Z.of_nat (v_wait v0) + v_count v)%Z
        ∧ v_reset v = v_reset v0
    | Done =>
        (Z.of_nat (v_wait v0) + v_count v0 ≤ Z.of_nat (v_wait v)
         ≤ Z.of_nat (v_wait v0) + v_count v0 + Z.of_nat (v_reg v - v_reg v0))%Z
        ∧ v_reset v = S (v_reset v0)
    end.

(** The invariant of a wait over the semaphore with its capacity, started
    in view [v0] and during which nobody registers.  Signals sent at
    [SEM_VALUE_MAX] are lost, so the semaphore holds at most the signals
    received and not yet consumed; it holds exactly those when the signals
    the wait started with, together with the tokens pooled then, fit in
    the semaphore. *)
Definition posix_inv (v0 : view) (p : pc) (v : view) : Prop :=
  v_reg v = v_reg v0
  ∧ v_post v + v_out v = v_post v0 + v_out v0
  ∧ v_sem v + v_wait v + v_post v0 ≤ v_sem v0 + v_wait v0 + v_post v
  ∧ ((Z.of_nat (v_sem v0 + v_out v0) ≤ SEM_VALUE_MAX)%Z →
     v_sem v + v_wait v + v_post v0 = v_sem v0 + v_wait v0 + v_post v)
  ∧ v_wait v0 ≤ v_wait v
  ∧ match p with
    | Idle => v_count v = v_count v0 ∧ v_wait v = v_wait v0 ∧ v_reset v = v_reset v0
    | Test i =>
        v_count v = v_count v0 ∧ (0 ≤ i ≤ v_count v0)%Z
        ∧ Z.of_nat (v_wait v) = (Z.of_nat (v_wait v0) + i)%Z
        ∧ v_reset v = v_reset v0
    | Wait i =>
        v_count v = v_count v0 ∧ (0 ≤ i < v_count v0)%Z
        ∧ Z.of_nat (v_wait v) = (Z.of_nat (v_wait v0) + i)%Z
        ∧ v_reset v = v_reset v0
    | Reset =>
        v_count v = v_count v0
        ∧ Z.of_nat (v_wait v) = (Z.of_nat (v_wait v0) + v_count v0)%Z
        ∧ v_reset v = v_reset v0
    | Done =>
        v_count v = 0%Z
        ∧ Z.of_nat (v_wait v) = (Z.of_nat (v_wait v0) + v_count v0)%Z
        ∧ v_reset v = S (v_reset v0)
    end.

(** The same invariant seen from the destructor. *)
Definition posix_dtor_inv {U A : Type} (this : loc) (v0 : view) (d : dpc)
    (w : world U A) : Prop :=
  match d with
  | DLive => ∃ v, view_of this w = Some v ∧ posix_inv v0 Idle v
  | DWaiting p => ∃ v, view_of this w = Some v ∧ posix_inv v0 p v
  | DGone => True
  end.

(** The number of signals that do not fit in a semaphore, as a number of
    calls. *)
Definition SEM_RANGE : nat := Z.to_nat (SEM_VALUE_MAX + 1).





(** ** Concrete worlds used by the examples *)

(** No barrier, no task; then one barrier at address 1, just constructed. *)
Definition w_empty : world nat nat := World ∅ [] 0 [].

Definition w_fresh : world nat nat := synched_new 1%positive w_empty.

(** One barrier at address 1 whose counter holds [UINT_MAX]. *)
Definition w_max : world nat nat :=
  World {[ 1%positive := Synched 0 (UINT_MODULUS - 1) ]} [] 0 [].



(** A callable that records the order of its arguments as decimal digits. *)
Definition digits (args : list nat) (u : nat) : outcome nat :=
  Returned (fold_left (λ acc a, 10 * acc + a) args u).

(** A callable that counts its calls, and one that raises at once. *)
Definition incr (u : nat) : outcome nat := Returned (S u).


(** A world whose pool holds one wrapper binding [digits] to [(1, 2, 3)]. *)
Definition w_bound : world nat nat :=
  World ∅ [forwarded_callable [1; 2; 3] digits] 0 [].

(** A schedule of two tracked submissions, the wait and the two tasks. *)
Definition two_tasks : list (label nat nat) :=
  [LSubmit (SubSb 1%positive incr); LSubmit (SubSbArgs 1%positive digits [4; 2])].

Definition two_tasks_wait : list (label nat nat) :=
  [LThread; LThread; LRun 1; LThread; LThread; LRun 0; LThread; LThread;
   LThread].

(** The world after the two submissions, and after the whole schedule. *)
Definition w_two : world nat nat :=
  default w_fresh (snd <$> sys_run (wait_for_all_step 1%positive) two_tasks (Idle, w_fresh)).

Definition w_two_done : world nat nat :=
  default w_fresh
    (snd <$> sys_run (wait_for_all_step 1%positive) two_tasks_wait (Idle, w_two)).

(** One task is registered, the wait starts, and a second submission
    arrives while the loop is running. *)
Definition one_task : list (label nat nat) := [LSubmit (SubSb 1%positive incr)].

Definition w_one : world nat nat :=
  default w_fresh (snd <$> sys_run (wait_for_all_step 1%positive) one_task (Idle, w_fresh)).

Definition late_registration : list (label nat nat) :=
  [LThread; LSubmit (SubSb 1%positive incr); LRun 0; LRun 0;
   LThread; LThread; LThread; LThread; LThread].

Definition w_late : world nat nat :=
  default w_fresh
    (snd <$> sys_run (wait_for_all_step 1%positive) late_registration (Test 0, w_one)).

(** The barrier with two pooled tasks goes out of scope. *)
Definition two_tasks_scope_exit : list (label nat nat) := LThread :: two_tasks_wait.

Definition w_two_waited : world nat nat :=
  default w_fresh
    (snd <$> sys_run (synched_destroy_step 1%positive) two_tasks_scope_exit (DLive, w_two)).

Definition w_two_gone : world nat nat :=
  default w_fresh (snd <$> synched_destroy_step 1%positive (DWaiting Done, w_two_waited)).

(** The wait starts when only one of the two tasks will have run. *)
Definition two_tasks_blocked : list (label nat nat) :=
  [LThread; LThread; LRun 1; LThread; LThread].

Definition w_two_blocked : world nat nat :=
  default w_fresh
    (snd <$> sys_run (wait_for_all_step 1%positive) two_tasks_blocked (Idle, w_two)).


(** The wait over the single task of [w_one]. *)
Definition one_task_wait : list (label nat nat) :=
  [LThread; LThread; LRun 0; LThread; LThread; LThread].

Definition w_one_done : world nat nat :=
  default w_fresh
    (snd <$> sys_run (wait_for_all_step 1%positive) one_task_wait (Idle, w_one)).



(** The wait of [late_registration] from its call on. *)
Definition late_all : list (label nat nat) := LThread :: late_registration.

(** Both tasks of [w_two] have run before anybody waits. *)
Definition w_two_ran : world nat nat :=
  default w_fresh
    (snd <$> sys_run (wait_for_all_step 1%positive) [LRun 0; LRun 0] (Idle, w_two)).

(** A second cohort of one task on the barrier of [w_one_done]. *)
Definition w_gen2 : world nat nat :=
  default w_fresh
    (snd <$> sys_run (wait_for_all_step 1%positive) one_task (Idle, w_one_done)).

Definition w_gen2_done : world nat nat :=
  default w_fresh
    (snd <$> sys_run (wait_for_all_step 1%positive) one_task_wait (Idle, w_gen2)).




(** After the barrier of [w_two] is gone, an untracked task is submitted
    and run. *)
Definition after_scope : list (label nat nat) := [LSubmit (SubFn incr); LRun 0].

Definition w_after_scope : world nat nat :=
  default w_fresh
    (snd <$> sys_run (synched_destroy_step 1%positive) after_scope (DGone, w_two_gone)).

(** The barrier of [w_one] goes out of scope; its task runs, and a second
    task is registered after the wait inside the destructor has made its
    last test. *)
Definition scope_exit_race : list (label nat nat) :=
  [LThread; LThread; LThread; LRun 0; LThread; LThread;
   LSubmit (SubSb 1%positive incr); LThread; LThread].

Definition w_exit_race : world nat nat :=
  default w_fresh
    (snd <$> posix_run (synched_destroy_step 1%positive) scope_exit_race (DLive, w_one)).

(** The same race inside an explicit wait, and the next wait on that
    barrier. *)
Definition wait_race : list (label nat nat) :=
  [LThread; LThread; LRun 0; LThread; LThread;
   LSubmit (SubSb 1%positive incr); LThread].

Definition w_wait_race : world nat nat :=
  default w_fresh
    (snd <$> posix_run (wait_for_all_step 1%positive) wait_race (Idle, w_one)).

Definition w_wait_race_again : world nat nat :=
  default w_fresh
    (snd <$> posix_run (wait_for_all_step 1%positive) [LThread; LThread; LThread]
               (Idle, w_wait_race)).





(** * Properties *)

(** ** The log *)

Lemma occ_app e l1 l2 : occ e (l1 ++ l2) = occ e l1 + occ e l2.
Proof. unfold occ. by rewrite filter_app, length_app. Qed.

Lemma occ_snoc_eq e l : occ e (l ++ [e]) = S (occ e l).
Proof.
  rewrite occ_app. unfold occ at 2.
  rewrite filter_cons_True by done. simpl. lia.
Qed.

Lemma occ_snoc e e' l :
  occ e (l ++ [e']) = (if decide (e' = e) then 1 else 0) + occ e l.
Proof.
  rewrite occ_app. unfold occ at 2. destruct (decide (e' = e)) as [->|Hne].
  - rewrite filter_cons_True by done. simpl. lia.
  - rewrite filter_cons_False by done. simpl. lia.
Qed.

(** Normalises the event counts of a log extended by known events. *)
Ltac occ_norm :=
  rewrite ?occ_snoc; repeat (case_decide; try congruence); simpl.

Lemma occ_snoc_ne e e' l : e' ≠ e → occ e (l ++ [e']) = occ e l.
Proof.
  intros Hne. rewrite occ_app. unfold occ at 2.
  rewrite filter_cons_False by done. simpl. lia.
Qed.

(** ** Argument binding *)

Section Binding.
Context {A R : Type}.

(** After [n] steps the pack holds the first [n] components in front of
    what was already expanded. *)
Lemma applyTuple_take (f : list A → R) (t : list A) :
  ∀ (n : nat) (args : list A),
    n ≤ length t → applyTuple n f t args = Some (f (take n t ++ args)).
Proof.
  induction n as [|n IH]; intros args Hn; simpl.
  - done.
  - destruct (lookup_lt_is_Some_2 t n) as [x Hx]; [lia|].
    rewrite Hx. simpl. rewrite IH by lia.
    rewrite (take_S_r t n x Hx), <- app_assoc. done.
Qed.

Lemma applyTuple_all (f : list A → R) (t : list A) :
  applyTuple (length t) f t [] = Some (f t).
Proof.
  rewrite applyTuple_take by lia.
  by rewrite firstn_all, app_nil_r.
Qed.
End Binding.

Section Operations.
Context {U A : Type}.
Implicit Types (w : world U A) (t : task U A).

Lemma execute_forwarded (f : list A → U → outcome U) (params : list A) (u : U) :
  execute (forwarded_callable params f) u = Some (f params u).
Proof. simpl. by rewrite applyTuple_all. Qed.

Lemma execute_forwarded_sw (f : list A → U → outcome U) (params : list A)
    (sw : scope_waiter) (u : U) :
  execute (forwarded_callable_sw params f sw) u = Some (f params u).
Proof. simpl. by rewrite applyTuple_all. Qed.


Lemma register_lock_Some this w b :
  heap w !! this = Some b →
  register_lock this w =
    Some (ScopeWaiter this,
          emit (EvRegister this)
            (set_barrier this (Synched (m_sem b) (wrap (m_count b + 1))) w)).
Proof. intros Hb. unfold register_lock. by rewrite Hb. Qed.


Lemma task_destroy_pool t w w' : task_destroy t w = Some w' → pool w' = pool w.
Proof.
  unfold task_destroy, scope_waiter_destroy.
  destruct (token_of t) as [sw|]; simpl.
  - destruct (heap w !! mr_sem sw); simpl; [|done]. by intros [= <-].
  - by intros [= <-].
Qed.

Lemma submit_parallel_pool (sub : submission U A) w w' :
  submit_parallel sub w = Some w' → ∃ t', pool w' = pool w ++ [t'].
Proof.
  destruct sub as [sb f|f|sb f ps|f ps]; simpl;
    unfold parallel_sb, parallel_fn, parallel_sb_args, parallel_fn_args,
      register_lock.
  1,3: destruct (heap w !! sb); simpl; [|done].
  all: intros [= <-]; by eexists.
Qed.

Lemma wait_for_all_step_pool this p w p' w' :
  wait_for_all_step this (p, w) = Some (p', w') → pool w' = pool w.
Proof.
  unfold wait_for_all_step. simpl.
  destruct p as [|i|i| |]; simpl; try destruct (heap w !! this) as [b|]; simpl;
    try done; try (by intros [= <- <-]).
  destruct (sem_wait b); simpl; [|done]. by intros [= <- <-].
Qed.

(** A pooled wrapper stays in the pool, as it is, until the executor runs
    it. *)
Lemma pooled_task_stays this (l : label U A) p w p' w' t :
  t ∈ pool w →
  sys_step (wait_for_all_step this) l (p, w) = Some (p', w') →
  t ∈ pool w' ∨ ∃ k, l = LRun k ∧ pool w !! k = Some t.
Proof.
  intros Ht Hs. destruct l as [sub|k|]; simpl in Hs.
  - destruct (submit_parallel sub w) as [w1|] eqn:Hsub; simpl in Hs; [|done].
    injection Hs as <- <-. left.
    destruct (submit_parallel_pool sub w w1 Hsub) as [t' ->].
    apply elem_of_app. by left.
  - unfold run_task in Hs.
    destruct (pool w !! k) as [tk|] eqn:Hk; simpl in Hs; [|done].
    destruct (execute tk (user w)) as [o|]; simpl in Hs; [|done].
    destruct (task_destroy tk _) as [w1|] eqn:Hd; simpl in Hs; [|done].
    injection Hs as <- <-. apply task_destroy_pool in Hd. simpl in Hd.
    rewrite Hd, delete_take_drop.
    rewrite <- (take_drop_middle (pool w) k tk Hk) in Ht.
    apply elem_of_app in Ht as [Ht|Ht].
    + left. apply elem_of_app. by left.
    + apply elem_of_cons in Ht as [->|Ht].
      * right. by exists k.
      * left. apply elem_of_app. by right.
  - left. by rewrite (wait_for_all_step_pool this p w p' w' Hs).
Qed.
End Operations.

(** C7.  A callable bound with the values [params] is, when the wrapper is
    executed, applied to exactly [params] in their positional order: the
    tuple expansion of any arity [length t] ends in the call [f t]; both
    [forwarded_callable] wrappers' [execute] compute [f params]; a submitted
    wrapper stays in the pool unchanged through every step but the one that
    runs it; and the executor running such a wrapper from the pool of any
    later world [w] leaves the user state that [f params (user w)] ends
    in. *)
Theorem C7_binding_round_trip :
  ∀ (U A : Type) (f : list A → U → outcome U) (params : list A),
    applyTuple (length params) f params [] = Some (f params)
    ∧ (∀ a b c : A, applyTuple 3 f [a; b; c] [] = Some (f [a; b; c]))
    ∧ (∀ u, execute (forwarded_callable params f) u = Some (f params u))
    ∧ (∀ sw u, execute (forwarded_callable_sw params f sw) u = Some (f params u))
    ∧ (∀ (w : world U A),
         ∃ w1, parallel_fn_args f params w = Some w1
               ∧ pool w1 = pool w ++ [forwarded_callable params f])
    ∧ (∀ (w w' : world U A) (this : loc) (l : label U A) (p p' : pc),
         forwarded_callable params f ∈ pool w →
         sys_step (wait_for_all_step this) l (p, w) = Some (p', w') →
         forwarded_callable params f ∈ pool w'
         ∨ ∃ k, l = LRun k ∧ pool w !! k = Some (forwarded_callable params f))
    ∧ (∀ (w : world U A) (k : nat),
         pool w !! k = Some (forwarded_callable params f) →
         ∃ w', run_task k w = Some w' ∧ user w' = state_of (f params (user w))).
Proof.
  intros U A f params. split_and!.
  - apply applyTuple_all.
  - intros a b c. apply (applyTuple_all f [a; b; c]).
  - apply execute_forwarded.
  - apply execute_forwarded_sw.
  - intros w. eexists. split; [reflexivity|]. done.
  - intros w w' this l p p'. apply pooled_task_stays.
  - intros w k Hk. unfold run_task. rewrite Hk. simpl.
    rewrite applyTuple_all. simpl. eexists. split; [reflexivity|]. done.
Qed.

(** C9.  [parallel] and [async] coincide on every call shape: the same
    registration, the same wrapper, the same hand-over to the executor. *)
Theorem C9_parallel_async_same :
  ∀ (U A : Type) (s : submission U A) (w : world U A),
    submit_parallel s w = submit_async s w
    ∧ (∀ sb func, parallel_sb (A:=A) sb func w = async_sb sb func w)
    ∧ (∀ func, parallel_fn (A:=A) func w = async_fn func w)
    ∧ (∀ sb f params, parallel_sb_args sb f params w = async_sb_args sb f params w)
    ∧ (∀ f params, parallel_fn_args f params w = async_fn_args f params w).
Proof.
  intros U A s w. split_and!; first [done | by destruct s].
Qed.

Lemma C7_binding_round_trip_witness :
  (forwarded_callable [1; 2; 3] digits ∈ pool w_bound
   ∨ ∃ k, @LThread nat nat = LRun k
          ∧ pool w_bound !! k = Some (forwarded_callable [1; 2; 3] digits))
  ∧ ∃ w', run_task 0 w_bound = Some w' ∧ user w' = 123.
Proof.
  destruct (C7_binding_round_trip nat nat digits [1; 2; 3])
    as (_ & _ & _ & _ & _ & Hstay & Hrun).
  split.
  - apply (Hstay w_bound w_bound 1%positive LThread Idle (Test 0)).
    + apply list_elem_of_here.
    + reflexivity.
  - apply (Hrun w_bound 0). reflexivity.
Defined.

Section RegisterLock.
Context {U A : Type}.
Implicit Types (w : world U A).

(** [register_lock] fails only on a barrier that does not exist. *)
Lemma register_lock_is_Some this w :
  is_Some (register_lock this w) ↔ is_Some (heap w !! this).
Proof.
  unfold register_lock. destruct (heap w !! this) as [b|]; simpl.
  - split; intros _; by eexists.
  - split; intros [x Hx]; discriminate.
Qed.

Lemma wrap_succ_small (c : Z) :
  (0 ≤ c < UINT_MODULUS - 1)%Z → wrap (c + 1) = (c + 1)%Z.
Proof. intros Hc. unfold wrap. apply Z.mod_small. lia. Qed.

Lemma wrap_succ_max : wrap (UINT_MODULUS - 1 + 1) = 0%Z.
Proof. reflexivity. Qed.

Lemma wrap_range (z : Z) : (0 ≤ wrap z < UINT_MODULUS)%Z.
Proof. unfold wrap. apply Z.mod_pos_bound. reflexivity. Qed.
End RegisterLock.

(** C3 (amended).  On a live barrier [register_lock] always succeeds; it
    returns a token that references this barrier, replaces [m_count] by
    [m_count + 1] reduced modulo [2^32] (which is [m_count + 1] below
    [UINT_MAX] and [0] at [UINT_MAX]), leaves the semaphore, every other
    barrier, the pool and the user state alone, and performs no [sem_post]:
    the only event is the registration. *)
Theorem C3_register_lock_increments_mod :
  ∀ (U A : Type) (this : loc) (w : world U A) (b : synched_t),
    heap w !! this = Some b →
    (0 ≤ m_count b < UINT_MODULUS)%Z →
    ∃ w', register_lock this w = Some (ScopeWaiter this, w')
          ∧ heap w' =
              <[this := Synched (m_sem b)
                          (if decide (m_count b = UINT_MODULUS - 1)%Z
                           then 0 else m_count b + 1)%Z]> (heap w)
          ∧ (∀ l, l ≠ this → heap w' !! l = heap w !! l)
          ∧ pool w' = pool w
          ∧ user w' = user w
          ∧ log w' = log w ++ [EvRegister this].
Proof.
  intros U A this w b Hb Hc. eexists. split; [by apply register_lock_Some|].
  simpl. split_and!; try done.
  - do 2 f_equal. destruct (decide _) as [->|Hne].
    + apply wrap_succ_max.
    + apply wrap_succ_small. lia.
  - intros l Hl. by rewrite lookup_insert_ne.
Qed.

Lemma C3_register_lock_increments_mod_witness :
  ∃ w', register_lock 1%positive w_fresh = Some (ScopeWaiter 1%positive, w')
        ∧ heap w' !! 1%positive = Some (Synched 0 1)
        ∧ log w' = [EvRegister 1%positive].
Proof.
  destruct (C3_register_lock_increments_mod nat nat 1%positive w_fresh (Synched 0 0))
    as (w' & H1 & H2 & _ & _ & _ & H3).
  - reflexivity.
  - unfold UINT_MODULUS. simpl. lia.
  - exists w'. split_and!; [exact H1 | | exact H3].
    rewrite H2. apply lookup_insert_eq.
Defined.

(** C3, as stated, fails when the counter holds [UINT_MAX]: the call
    leaves [m_count = 0], not [m_count + 1]. *)
Lemma C3_counterexample :
  ∃ tok w' b b',
    register_lock 1%positive w_max = Some (tok, w')
    ∧ heap w_max !! 1%positive = Some b
    ∧ heap w' !! 1%positive = Some b'
    ∧ m_count b = 4294967295%Z
    ∧ m_count b' = 0%Z
    ∧ m_count b' ≠ (m_count b + 1)%Z.
Proof.
  eexists _, _, _, _. split_and!.
  - apply register_lock_Some. reflexivity.
  - reflexivity.
  - simpl. apply lookup_insert_eq.
  - reflexivity.
  - reflexivity.
  - simpl. discriminate.
Qed.

Section Tokens.
Context {U A : Type}.
Implicit Types (w : world U A).



End Tokens.




(** ** How each step changes the view of a barrier *)

Section Views.
Context {U A : Type}.
Implicit Types (w : world U A) (t : task U A) (v : view).

Lemma outstanding_nil this : outstanding this (@nil (task U A)) = 0.
Proof. reflexivity. Qed.

Lemma outstanding_app this (p1 p2 : list (task U A)) :
  outstanding this (p1 ++ p2) = outstanding this p1 + outstanding this p2.
Proof. unfold outstanding. by rewrite filter_app, length_app. Qed.

Lemma outstanding_cons this t (p : list (task U A)) :
  outstanding this (t :: p) =
    (if decide (token_of t = Some (ScopeWaiter this)) then 1 else 0)
    + outstanding this p.
Proof.
  unfold outstanding. destruct (decide _) as [H|H].
  - by rewrite filter_cons_True.
  - by rewrite filter_cons_False.
Qed.

(** Taking the [k]-th task out of the pool removes its token, if any. *)
Lemma outstanding_delete this (p : list (task U A)) k t :
  p !! k = Some t →
  outstanding this p =
    (if decide (token_of t = Some (ScopeWaiter this)) then 1 else 0)
    + outstanding this (delete k p).
Proof.
  intros Hk. rewrite <- (take_drop_middle p k t Hk) at 1.
  rewrite delete_take_drop, !outstanding_app, outstanding_cons. lia.
Qed.

Lemma view_of_Some this w v :
  view_of this w = Some v →
  ∃ b, heap w !! this = Some b
       ∧ v = View (m_sem b) (m_count b) (outstanding this (pool w))
               (occ (EvRegister this) (log w)) (occ (EvPost this) (log w))
               (occ (EvWait this) (log w)) (occ (EvReset this) (log w)).
Proof.
  unfold view_of. destruct (heap w !! this) as [b|]; simpl; [|done].
  intros [= <-]. by exists b.
Qed.

(** A submission against [this] registers once and pools one token. *)
Lemma submit_on_view this sub w w' v :
  barrier_of sub = Some this →
  view_of this w = Some v →
  submit_parallel sub w = Some w' →
  view_of this w' =
    Some (View (v_sem v) (wrap (v_count v + 1)) (S (v_out v)) (S (v_reg v))
            (v_post v) (v_wait v) (v_reset v)).
Proof.
  intros Hsub (b & Hb & ->)%view_of_Some Hw'.
  destruct sub as [sb f|f|sb f ps|f ps]; simpl in Hsub; try done;
    injection Hsub as ->; simpl in Hw';
    unfold parallel_sb, parallel_sb_args in Hw';
    rewrite (register_lock_Some _ _ _ Hb) in Hw'; simpl in Hw';
    injection Hw' as <-; unfold view_of; simpl;
    rewrite lookup_insert_eq; simpl;
    rewrite outstanding_app, outstanding_cons, decide_True by done;
    occ_norm; rewrite outstanding_nil; by repeat (f_equal; try lia).
Qed.

(** Any other submission leaves the view alone. *)
Lemma submit_off_view this sub w w' v :
  barrier_of sub ≠ Some this →
  view_of this w = Some v →
  submit_parallel sub w = Some w' →
  view_of this w' = Some v.
Proof.
  intros Hsub (b & Hb & ->)%view_of_Some Hw'.
  destruct sub as [sb f|f|sb f ps|f ps]; simpl in Hsub, Hw';
    unfold parallel_sb, parallel_sb_args, parallel_fn, parallel_fn_args,
      register_lock in Hw'.
  1,3: destruct (heap w !! sb) as [b'|] eqn:Hsb; simpl in Hw'; [|done].
  all: injection Hw' as <-; unfold view_of; simpl.
  1,2: rewrite lookup_insert_ne by congruence.
  all: rewrite Hb; simpl;
    rewrite outstanding_app, outstanding_cons, outstanding_nil;
    unfold scope_waiter_new; simpl; occ_norm;
    by repeat (f_equal; try lia).
Qed.

(** Running a pooled task: if its token references [this] the barrier
    receives one signal and one token leaves the pool; otherwise the view
    is unchanged. *)
Lemma run_task_view this k w w' v :
  view_of this w = Some v →
  run_task k w = Some w' →
  ∃ t, pool w !! k = Some t
       ∧ if decide (token_of t = Some (ScopeWaiter this))
         then ∃ n, v_out v = S n
                   ∧ view_of this w' =
                       Some (View (S (v_sem v)) (v_count v) n (v_reg v)
                               (S (v_post v)) (v_wait v) (v_reset v))
         else view_of this w' = Some v.
Proof.
  intros (b & Hb & ->)%view_of_Some Hw'. unfold run_task in Hw'.
  destruct (pool w !! k) as [t|] eqn:Hk; simpl in Hw'; [|done].
  destruct (execute t (user w)) as [u'|]; simpl in Hw'; [|done].
  exists t. split; [done|].
  pose proof (outstanding_delete this (pool w) k t Hk) as Hout.
  unfold task_destroy in Hw'. destruct (decide _) as [Ht|Ht].
  - rewrite Ht in Hw'. unfold scope_waiter_destroy in Hw'. simpl in Hw'.
    rewrite Hb in Hw'. simpl in Hw'. injection Hw' as <-.
    exists (outstanding this (delete k (pool w))). simpl. split; [lia|].
    unfold view_of. simpl. rewrite lookup_insert_eq. simpl.
    occ_norm. done.
  - destruct (token_of t) as [[l]|] eqn:Htok.
    + assert (l ≠ this) by congruence.
      unfold scope_waiter_destroy in Hw'. simpl in Hw'.
      destruct (heap w !! l) as [b'|]; simpl in Hw'; [|done].
      injection Hw' as <-. unfold view_of. simpl.
      rewrite lookup_insert_ne, Hb by done. simpl.
      occ_norm. by repeat (f_equal; try lia).
    + injection Hw' as <-. unfold view_of. simpl. rewrite Hb. simpl.
      occ_norm. by repeat (f_equal; try lia).
Qed.
End Views.

(** ** The invariant of a wait *)

Section WaitInvariant.
Context {U A : Type}.
Implicit Types (w : world U A) (v : view) (p : pc).

Local Abbreviation waiter this := (@wait_for_all_step U A this).

(** The effect of one step of [wait_for_all] on the view. *)
Lemma wait_step_view this p w p' w' v :
  view_of this w = Some v →
  wait_for_all_step this (p, w) = Some (p', w') →
  match p with
  | Idle => p' = Test 0 ∧ w' = w
  | Test i => p' = (if (i <? v_count v)%Z then Wait i else Reset) ∧ w' = w
  | Wait i =>
      ∃ n, v_sem v = S n ∧ p' = Test (wrap (i + 1))
           ∧ view_of this w' =
               Some (View n (v_count v) (v_out v) (v_reg v) (v_post v)
                       (S (v_wait v)) (v_reset v))
  | Reset =>
      p' = Done
      ∧ view_of this w' =
          Some (View (v_sem v) 0 (v_out v) (v_reg v) (v_post v) (v_wait v)
                  (S (v_reset v)))
  | Done => False
  end.
Proof.
  intros (b & Hb & ->)%view_of_Some Hs.
  unfold wait_for_all_step in Hs. simpl in Hs.
  destruct p as [|i|i| |]; simpl; try rewrite Hb in Hs; simpl in Hs.
  - by injection Hs as <- <-.
  - by injection Hs as <- <-.
  - unfold sem_wait in Hs. destruct (m_sem b) as [|n] eqn:Hn; simpl in Hs; [done|].
    injection Hs as <- <-. exists n. split_and!; try done.
    unfold view_of. simpl. rewrite lookup_insert_eq. simpl. occ_norm. done.
  - injection Hs as <- <-. split; [done|].
    unfold view_of. simpl. rewrite lookup_insert_eq. simpl. occ_norm. done.
  - done.
Qed.

Lemma wrap_small (z : Z) : (0 ≤ z < UINT_MODULUS)%Z → wrap z = z.
Proof. intros Hz. unfold wrap. by apply Z.mod_small. Qed.

(** Every step of a schedule that does not register against [this]
    preserves the invariant. *)
Lemma wait_inv_step this v0 l p w p' w' v :
  (0 ≤ v_count v0 < UINT_MODULUS)%Z →
  registers_on this l = false →
  view_of this w = Some v →
  wait_inv v0 p v →
  sys_step (waiter this) l (p, w) = Some (p', w') →
  ∃ v', view_of this w' = Some v' ∧ wait_inv v0 p' v'.
Proof.
  intros Hc Hq Hv (Hreg & Hpost & Hsem & Hp) Hs.
  destruct l as [sub|k|]; simpl in Hs.
  - (* a submission elsewhere *)
    destruct (submit_parallel sub w) as [w1|] eqn:Hsub; simpl in Hs; [|done].
    injection Hs as <- <-. exists v. split; [|done].
    eapply submit_off_view; [|done..].
    simpl in Hq. by apply bool_decide_eq_false in Hq.
  - (* the executor runs a task *)
    destruct (run_task k w) as [w1|] eqn:Hrun; simpl in Hs; [|done].
    injection Hs as <- <-.
    destruct (run_task_view this k w w1 v Hv Hrun) as (t & _ & Ht).
    destruct (decide _).
    + destruct Ht as (n & Hn & ->). eexists. split; [done|].
      unfold wait_inv. simpl. split_and!; try lia.
      destruct p; simpl in *; done.
    + exists v. done.
  - (* the waiting thread *)
    pose proof (wait_step_view this p w p' w' v Hv Hs) as Hstep.
    destruct p as [|i|i| |]; simpl in Hstep.
    + destruct Hstep as [-> ->]. exists v. split; [done|].
      unfold wait_inv. simpl in *. split_and!; try done; lia.
    + destruct Hstep as [-> ->]. exists v. split; [done|].
      unfold wait_inv. split_and!; try done.
      destruct Hp as (Hcv & Hi & Hw & Hr). rewrite Hcv.
      destruct (Z.ltb_spec i (v_count v0)); simpl; split_and!; try done; lia.
    + destruct Hstep as (n & Hn & -> & ->). eexists. split; [done|].
      destruct Hp as (Hcv & Hi & Hw & Hr).
      rewrite wrap_small by lia.
      unfold wait_inv. simpl. split_and!; try done; lia.
    + destruct Hstep as (-> & ->). eexists. split; [done|].
      destruct Hp as (Hcv & Hw & Hr).
      unfold wait_inv. simpl. split_and!; try done; lia.
    + done.
Qed.

Lemma quiet_cons this l ls :
  quiet (U:=U) (A:=A) this (l :: ls) = true →
  registers_on this l = false ∧ quiet this ls = true.
Proof.
  unfold quiet. simpl. intros [H1 H2]%andb_true_iff.
  split; [|done]. by apply negb_true_iff.
Qed.

(** The invariant holds along every quiet schedule. *)
Lemma wait_inv_run this v0 ls :
  (0 ≤ v_count v0 < UINT_MODULUS)%Z →
  quiet this ls = true →
  ∀ p w p' w' v,
    view_of this w = Some v →
    wait_inv v0 p v →
    sys_run (waiter this) ls (p, w) = Some (p', w') →
    ∃ v', view_of this w' = Some v' ∧ wait_inv v0 p' v'.
Proof.
  intros Hc. induction ls as [|l ls IH]; intros Hq p w p' w' v Hv Hinv Hrun.
  - simpl in Hrun. injection Hrun as <- <-. by exists v.
  - apply quiet_cons in Hq as [Hl Hq]. simpl in Hrun.
    destruct (sys_step (waiter this) l (p, w)) as [[p1 w1]|] eqn:Hs;
      simpl in Hrun; [|done].
    destruct (wait_inv_step this v0 l p w p1 w1 v Hc Hl Hv Hinv Hs)
      as (v1 & Hv1 & Hinv1).
    by eapply IH.
Qed.

Lemma wait_inv_init v : wait_inv v Idle v.
Proof. unfold wait_inv. simpl. done. Qed.
End WaitInvariant.

(** ** Running the waiting thread alone *)

Section Drain.
Context {U A : Type}.
Implicit Types (w : world U A) (v : view) (p : pc).

Local Abbreviation waiter this := (@wait_for_all_step U A this).

Lemma sys_run_app {T : Type} (thr : T * world U A → option (T * world U A))
    (ls1 ls2 : list (label U A)) (s : T * world U A) :
  sys_run thr (ls1 ++ ls2) s = s' ← sys_run thr ls1 s; sys_run thr ls2 s'.
Proof.
  revert s. induction ls1 as [|l ls1 IH]; intros s; simpl; [done|].
  destruct (sys_step thr l s) as [s1|]; simpl; [apply IH | done].
Qed.

Lemma step_idle this w :
  wait_for_all_step this (Idle, w) = Some (Test 0, w).
Proof. done. Qed.

Lemma step_test this i w b :
  heap w !! this = Some b →
  wait_for_all_step this (Test i, w) =
    Some (if (i <? m_count b)%Z then Wait i else Reset, w).
Proof. intros Hb. unfold wait_for_all_step. simpl. by rewrite Hb. Qed.

Lemma step_wait this i w b n :
  heap w !! this = Some b → m_sem b = S n →
  wait_for_all_step this (Wait i, w) =
    Some (Test (wrap (i + 1)),
          emit (EvWait this) (set_barrier this (Synched n (m_count b)) w)).
Proof.
  intros Hb Hn. unfold wait_for_all_step. simpl. rewrite Hb. simpl.
  unfold sem_wait. by rewrite Hn.
Qed.

Lemma step_reset this w b :
  heap w !! this = Some b →
  wait_for_all_step this (Reset, w) =
    Some (Done, emit (EvReset this) (set_barrier this (Synched (m_sem b) 0) w)).
Proof. intros Hb. unfold wait_for_all_step. simpl. by rewrite Hb. Qed.

Lemma sys_run_thread {T : Type} (thr : T * world U A → option (T * world U A))
    (n : nat) (s s' : T * world U A) :
  thr s = Some s' →
  sys_run thr (replicate (S n) LThread) s = sys_run thr (replicate n LThread) s'.
Proof. intros Hs. simpl. by rewrite Hs. Qed.

(** At the loop test with [k] iterations to go and at least [k] signals in
    the semaphore, the thread performs [k] decrements, resets the counter
    and returns, in [2k + 2] steps, touching nothing else. *)
Lemma waiter_drains this (k : nat) :
  ∀ (i : Z) w b,
    heap w !! this = Some b →
    (0 ≤ i)%Z → (i + Z.of_nat k = m_count b)%Z → (m_count b < UINT_MODULUS)%Z →
    k ≤ m_sem b →
    ∃ w', sys_run (waiter this) (replicate (2 * k + 2) LThread) (Test i, w)
            = Some (Done, w')
          ∧ heap w' = <[this := Synched (m_sem b - k) 0]> (heap w)
          ∧ log w' = log w ++ replicate k (EvWait this) ++ [EvReset this]
          ∧ pool w' = pool w ∧ user w' = user w.
Proof.
  induction k as [|k IH]; intros i w b Hb Hi Hk Hc Hs.
  - change (2 * 0 + 2) with 2.
    rewrite (sys_run_thread _ 1 _ _ (step_test this i w b Hb)).
    rewrite (proj2 (Z.ltb_ge i (m_count b))) by lia.
    rewrite (sys_run_thread _ 0 _ _ (step_reset this w b Hb)).
    eexists. split; [reflexivity|]. simpl.
    rewrite Nat.sub_0_r. done.
  - replace (2 * S k + 2) with (S (S (2 * k + 2))) by lia.
    rewrite (sys_run_thread _ _ _ _ (step_test this i w b Hb)).
    rewrite (proj2 (Z.ltb_lt i (m_count b))) by lia.
    destruct (m_sem b) as [|n] eqn:Hn; [lia|].
    rewrite (sys_run_thread _ _ _ _ (step_wait this i w b n Hb Hn)).
    rewrite wrap_small by lia.
    edestruct (IH (i + 1)%Z
                 (emit (EvWait this) (set_barrier this (Synched n (m_count b)) w))
                 (Synched n (m_count b)))
      as (w' & Hrun & Hh & Hl & Hp & Hu); simpl;
      [apply lookup_insert_eq | lia | lia | lia | lia |].
    exists w'. split; [exact Hrun|]. split_and!; try done.
    + rewrite Hh. simpl. by rewrite insert_insert_eq.
    + rewrite Hl. simpl. by rewrite <- app_assoc.
Qed.

(** With enough signals in the semaphore the thread, left to run, returns. *)
Lemma waiter_finishes this p w b :
  heap w !! this = Some b →
  (0 ≤ m_count b < UINT_MODULUS)%Z →
  enough p b →
  ∃ n w', sys_run (waiter this) (replicate n LThread) (p, w) = Some (Done, w').
Proof.
  intros Hb Hc He. destruct p as [|i|i| |]; simpl in He.
  - destruct (waiter_drains this (Z.to_nat (m_count b)) 0 w b) as (w' & Hr & _);
      [done | lia | lia | lia | lia |].
    exists (S (2 * Z.to_nat (m_count b) + 2)), w'.
    by rewrite (sys_run_thread _ _ _ _ (step_idle this w)).
  - destruct (waiter_drains this (Z.to_nat (m_count b - i)) i w b) as (w' & Hr & _);
      [done | lia | lia | lia | lia |].
    by exists (2 * Z.to_nat (m_count b - i) + 2), w'.
  - destruct (m_sem b) as [|n] eqn:Hn; [lia|].
    destruct (waiter_drains this (Z.to_nat (m_count b - (i + 1))) (i + 1)
                (emit (EvWait this) (set_barrier this (Synched n (m_count b)) w))
                (Synched n (m_count b))) as (w' & Hr & _); simpl;
      [apply lookup_insert_eq | lia | lia | lia | lia |].
    exists (S (2 * Z.to_nat (m_count b - (i + 1)) + 2)), w'.
    rewrite (sys_run_thread _ _ _ _ (step_wait this i w b n Hb Hn)).
    rewrite wrap_small by lia. exact Hr.
  - exists 1. eexists.
    rewrite (sys_run_thread _ 0 _ _ (step_reset this w b Hb)). reflexivity.
  - by exists 0, w.
Qed.

(** The thread cannot fail: on a live barrier its step is undefined only
    when it has returned or when it is blocked in [sem_wait] on an empty
    semaphore. *)
Lemma wait_step_None this p w b :
  heap w !! this = Some b →
  wait_for_all_step this (p, w) = None ↔
  p = Done ∨ (∃ i, p = Wait i) ∧ m_sem b = 0.
Proof.
  intros Hb. unfold wait_for_all_step. simpl.
  destruct p as [|i|i| |]; try rewrite Hb; simpl.
  - split; [done|]. intros [?|[[? ?] _]]; done.
  - split; [done|]. intros [?|[[? ?] _]]; done.
  - unfold sem_wait. destruct (m_sem b); simpl.
    + split; [|done]. intros _. right. split; [by eexists|done].
    + split; [done|]. intros [?|[_ ?]]; done.
  - split; [done|]. intros [?|[[? ?] _]]; done.
  - split; [|done]. intros _. by left.
Qed.
End Drain.

(** ** Before the wait: registrations and completions *)

Section Cohort.
Context {U A T : Type}.
Implicit Types (w : world U A) (v : view).
Variable thr : T * world U A → option (T * world U A).

Lemma registrations_cons this (l : label U A) ls :
  registrations this (l :: ls) =
    (if registers_on this l then 1 else 0) + registrations this ls.
Proof.
  unfold registrations. destruct (registers_on this l) eqn:Hl.
  - by rewrite filter_cons_True.
  - rewrite filter_cons_False; [done|]. by rewrite Hl.
Qed.

Lemma wrap_wrap_add (c n : Z) : wrap (wrap (c + 1) + n) = wrap (c + (1 + n)).
Proof.
  unfold wrap. rewrite Zplus_mod_idemp_l. f_equal. lia.
Qed.

(** While the owner of the barrier does nothing, [n] registrations leave
    the counter at [m_count + n] modulo [2^32], and every token is either
    still pooled or has posted. *)
Lemma cohort_run this ls :
  no_thread ls = true →
  ∀ (s s' : T) w w' v,
    (0 ≤ v_count v < UINT_MODULUS)%Z →
    view_of this w = Some v →
    sys_run thr ls (s, w) = Some (s', w') →
    s' = s
    ∧ ∃ v', view_of this w' = Some v'
            ∧ v_reg v' = v_reg v + registrations this ls
            ∧ v_count v' = wrap (v_count v + Z.of_nat (registrations this ls))
            ∧ v_sem v' + v_post v = v_sem v + v_post v'
            ∧ v_post v' + v_out v' = v_post v + v_out v + registrations this ls
            ∧ v_wait v' = v_wait v ∧ v_reset v' = v_reset v.
Proof.
  induction ls as [|l ls IH]; intros Hnt s s' w w' v Hc Hv Hrun.
  - simpl in Hrun. injection Hrun as <- <-. split; [done|].
    exists v. unfold registrations. simpl.
    rewrite Z.add_0_r, wrap_small by done. split_and!; try done; lia.
  - simpl in Hnt. apply andb_true_iff in Hnt as [Hl Hnt].
    simpl in Hrun. rewrite registrations_cons.
    destruct l as [sub|k|]; [| |done]; simpl in Hrun.
    + destruct (submit_parallel sub w) as [w1|] eqn:Hsub; simpl in Hrun; [|done].
      simpl. destruct (bool_decide (barrier_of sub = Some this)) eqn:Hon.
      * apply bool_decide_eq_true in Hon.
        pose proof (submit_on_view this sub w w1 v Hon Hv Hsub) as Hv1.
        assert (Hc1 : (0 ≤ wrap (v_count v + 1) < UINT_MODULUS)%Z)
          by apply wrap_range.
        destruct (λ Hc', IH Hnt s s' w1 w' _ Hc' Hv1 Hrun)
          as (-> & v' & Hv' & Hr & Hcnt & Hs & Hp & Hw & Hre); [exact Hc1|].
        simpl in *. split; [done|]. exists v'. split_and!; try done; try lia.
        rewrite Hcnt, wrap_wrap_add. f_equal. lia.
      * apply bool_decide_eq_false in Hon.
        pose proof (submit_off_view this sub w w1 v Hon Hv Hsub) as Hv1.
        destruct (IH Hnt s s' w1 w' v Hc Hv1 Hrun)
          as (-> & v' & Hv' & Hr & Hcnt & Hs & Hp & Hw & Hre).
        split; [done|]. exists v'. split_and!; try done; lia.
    + destruct (run_task k w) as [w1|] eqn:Hrt; simpl in Hrun; [|done].
      destruct (run_task_view this k w w1 v Hv Hrt) as (t & _ & Ht).
      destruct (decide _).
      * destruct Ht as (n & Hn & Hv1).
        destruct (λ Hc', IH Hnt s s' w1 w' _ Hc' Hv1 Hrun)
          as (-> & v' & Hv' & Hr & Hcnt & Hs & Hp & Hw & Hre); [exact Hc|].
        simpl in *. split; [done|]. exists v'. split_and!; try done; lia.
      * destruct (IH Hnt s s' w1 w' v Hc Ht Hrun)
          as (-> & v' & Hv' & Hr & Hcnt & Hs & Hp & Hw & Hre).
        split; [done|]. exists v'. split_and!; try done; lia.
Qed.

(** The view of a barrier that was just constructed. *)
Lemma view_of_new this w :
  view_of this (synched_new this w) =
    Some (View 0 0 (outstanding this (pool w))
            (occ (EvRegister this) (log w)) (occ (EvPost this) (log w))
            (occ (EvWait this) (log w)) (occ (EvReset this) (log w))).
Proof. unfold view_of, synched_new. simpl. by rewrite lookup_insert_eq. Qed.
End Cohort.

(** ** The wait and its cohort *)

Section Finish.
Context {U A : Type}.
Implicit Types (w : world U A) (v : view) (p : pc).

Local Abbreviation waiter this := (@wait_for_all_step U A this).

(** Under the invariant of a balanced barrier, once the pool holds no token
    the semaphore holds what the loop still needs. *)
Lemma wait_inv_finishes this v0 p w v :
  (0 ≤ v_count v0 < UINT_MODULUS)%Z →
  v_count v0 = Z.of_nat (v_sem v0 + v_out v0) →
  view_of this w = Some v →
  wait_inv v0 p v →
  v_out v = 0 →
  ∃ n w', sys_run (waiter this) (replicate n LThread) (p, w) = Some (Done, w').
Proof.
  intros Hc Hbal Hv (Hreg & Hpost & Hsem & Hp) Hout.
  destruct (view_of_Some this w v Hv) as (b & Hb & Hvb).
  apply (waiter_finishes this p w b Hb).
  - subst v. simpl in *.
    destruct p; simpl in Hp; destruct Hp as (Hcnt & _); rewrite Hcnt; lia.
  - subst v. simpl in *. destruct p; simpl in *; lia.
Qed.

(** A wait over a balanced barrier ([m_count] = signals in the semaphore +
    pooled tokens): it has returned only if no token is left in the pool,
    and once no token is left it does return. *)
Lemma wait_balanced this ls w v0 p' w' :
  (0 ≤ v_count v0 < UINT_MODULUS)%Z →
  v_count v0 = Z.of_nat (v_sem v0 + v_out v0) →
  view_of this w = Some v0 →
  quiet this ls = true →
  sys_run (waiter this) ls (Idle, w) = Some (p', w') →
  ∃ v', view_of this w' = Some v'
        ∧ wait_inv v0 p' v'
        ∧ (p' = Done → v_out v' = 0 ∧ v_sem v' = 0)
        ∧ (v_out v' = 0 →
           ∃ n w'', sys_run (waiter this) (replicate n LThread) (p', w')
                      = Some (Done, w'')).
Proof.
  intros Hc Hbal Hv Hq Hrun.
  destruct (wait_inv_run this v0 ls Hc Hq Idle w p' w' v0 Hv (wait_inv_init v0) Hrun)
    as (v' & Hv' & Hinv).
  exists v'. split_and!; try done.
  - intros ->. destruct Hinv as (Hreg & Hpost & Hsem & Hcnt & Hw & Hr). lia.
  - intros Hout. by eapply wait_inv_finishes.
Qed.
End Finish.

Section Overflow.
Context {U A : Type}.
Implicit Types (w : world U A) (v : view).

Lemma registrations_replicate this (sub : submission U A) (n : nat) :
  barrier_of sub = Some this →
  registrations this (replicate n (LSubmit sub)) = n.
Proof.
  intros Hsub. induction n as [|n IH]; [done|].
  simpl. rewrite registrations_cons, IH. simpl.
  by rewrite bool_decide_eq_true_2.
Qed.

(** [n] submissions in a row against a live barrier. *)
Lemma submits_view {T : Type} (thr : T * world U A → option (T * world U A))
    this (sub : submission U A) (n : nat) :
  barrier_of sub = Some this →
  ∀ (s : T) w v,
    view_of this w = Some v →
    ∃ w', sys_run thr (replicate n (LSubmit sub)) (s, w) = Some (s, w')
          ∧ view_of this w' =
              Some (View (v_sem v) (wrap (v_count v + Z.of_nat n)) (v_out v + n)
                      (v_reg v + n) (v_post v) (v_wait v) (v_reset v))
                ∨ n = 0 ∧ w' = w.
Proof.
  intros Hsub. induction n as [|n IH]; intros s w v Hv.
  - exists w. right. done.
  - destruct (view_of_Some this w v Hv) as (b & Hb & _).
    assert (∃ w1, submit_parallel sub w = Some w1) as [w1 Hw1].
    { destruct sub as [sb f|f|sb f ps|f ps]; simpl in Hsub; try done;
        injection Hsub as ->; simpl;
        unfold parallel_sb, parallel_sb_args;
        rewrite (register_lock_Some _ _ _ Hb); simpl; by eexists. }
    pose proof (submit_on_view this sub w w1 v Hsub Hv Hw1) as Hv1.
    destruct (IH s w1 _ Hv1) as (w' & [(Hrun & Hv') | (-> & ->)]).
    + exists w'. left. split.
      * simpl. rewrite Hw1. simpl. exact Hrun.
      * rewrite Hv'. simpl. rewrite wrap_wrap_add.
        repeat (f_equal; try lia).
    + exists w1. left. split.
      * simpl. by rewrite Hw1.
      * rewrite Hv1. unfold wrap. repeat (f_equal; try lia).
Qed.

(** When the number of registrations is a multiple of [2^32] the counter is
    back at its start: a wait from a zero counter returns at once, with
    every token still in the pool. *)
Lemma wrapped_cohort_missed this (sub : submission U A) (n : nat) w v :
  barrier_of sub = Some this →
  0 < n →
  view_of this w = Some v →
  v_out v = 0 →
  wrap (v_count v + Z.of_nat n) = 0%Z →
  ∃ w2 w3,
    sys_run (wait_for_all_step this) (replicate n (LSubmit sub)) (Idle, w)
      = Some (Idle, w2)
    ∧ sys_run (wait_for_all_step this) [LThread; LThread; LThread] (Idle, w2)
        = Some (Done, w3)
    ∧ outstanding this (pool w3) = n
    ∧ occ (EvPost this) (log w3) = v_post v.
Proof.
  intros Hsub Hn Hv Hout0 Hwrap.
  destruct (submits_view (wait_for_all_step this) this sub n Hsub Idle w v Hv)
    as (w2 & [(Hrun & Hv2) | (-> & _)]); [|lia].
  destruct (view_of_Some this w2 _ Hv2) as (b2 & Hb2 & Hvb).
  injection Hvb as Hsem Hcnt Hout Hreg Hpost Hwait Hreset.
  exists w2. eexists. split; [exact Hrun|]. split.
  - change [LThread; LThread; LThread] with (replicate 3 (@LThread U A)).
    rewrite (sys_run_thread _ 2 _ _ (step_idle this w2)).
    rewrite (sys_run_thread _ 1 _ _ (step_test this 0 w2 b2 Hb2)).
    rewrite <- Hcnt, Hwrap. simpl.
    rewrite (step_reset this w2 b2 Hb2). reflexivity.
  - simpl. occ_norm. split; lia.
Qed.
End Overflow.

Lemma UINT_RANGE_wraps : wrap (0 + Z.of_nat UINT_RANGE) = 0%Z.
Proof.
  unfold UINT_RANGE. rewrite Z2Nat.id by (unfold UINT_MODULUS; lia).
  reflexivity.
Qed.

Lemma UINT_RANGE_pos : 0 < UINT_RANGE.
Proof.
  unfold UINT_RANGE. apply Nat2Z.inj_lt.
  rewrite Z2Nat.id by (unfold UINT_MODULUS; lia). unfold UINT_MODULUS. lia.
Qed.




(** ** The destructor *)

Section Destructor.
Context {U A : Type}.
Implicit Types (w : world U A) (v : view) (p : pc) (d : dpc).

Local Abbreviation dtor this := (@synched_destroy_step U A this).

(** Inside the destructor the steps are those of [wait_for_all]. *)
Lemma dtor_step_waiting this p w :
  p ≠ Done →
  synched_destroy_step this (DWaiting p, w) =
    (λ s, (DWaiting s.1, s.2)) <$> wait_for_all_step this (p, w).
Proof.
  intros Hp. unfold synched_destroy_step. simpl.
  destruct p; try done;
    destruct (wait_for_all_step this _) as [[p1 w1]|]; done.
Qed.

(** Steps of the submitters and of the executor do not depend on the
    thread that owns the barrier. *)
Lemma wait_inv_env {T : Type} (thr : T * world U A → option (T * world U A))
    this v0 (l : label U A) (s s' : T) w w' p v :
  (0 ≤ v_count v0 < UINT_MODULUS)%Z →
  registers_on this l = false →
  l ≠ LThread →
  view_of this w = Some v →
  wait_inv v0 p v →
  sys_step thr l (s, w) = Some (s', w') →
  s' = s ∧ ∃ v', view_of this w' = Some v' ∧ wait_inv v0 p v'.
Proof.
  intros Hc Hq Hl Hv Hinv Hs.
  assert (s' = s ∧ sys_step (@wait_for_all_step U A this) l (p, w) = Some (p, w'))
    as [-> Hs'].
  { destruct l as [sub|k|]; [| |done]; simpl in *.
    - destruct (submit_parallel sub w); simpl in *; [|done].
      by injection Hs as <- <-.
    - destruct (run_task k w); simpl in *; [|done].
      by injection Hs as <- <-. }
  split; [done|]. by eapply wait_inv_step.
Qed.

Lemma dtor_inv_step this v0 (l : label U A) d w d' w' :
  (0 ≤ v_count v0 < UINT_MODULUS)%Z →
  registers_on this l = false →
  dtor_inv this v0 d w →
  sys_step (dtor this) l (d, w) = Some (d', w') →
  dtor_inv this v0 d' w'.
Proof.
  intros Hc Hq Hinv Hs.
  assert (l = LThread ∨ l ≠ LThread) as [->|Hl]
    by (destruct l; [right | right | left]; done).
  2: { destruct d as [|p|]; simpl in Hinv.
       - destruct Hinv as (v & Hv & Hinv).
         destruct (wait_inv_env _ this v0 l _ _ w w' Idle v Hc Hq Hl Hv Hinv Hs)
           as (-> & v1 & Hv1 & Hinv1).
         by exists v1.
       - destruct Hinv as (v & Hv & Hinv).
         destruct (wait_inv_env _ this v0 l _ _ w w' p v Hc Hq Hl Hv Hinv Hs)
           as (-> & v1 & Hv1 & Hinv1).
         by exists v1.
       - assert (d' = DGone) as ->; [|done].
         destruct l as [sub|k|]; [| |done]; simpl in Hs.
         + destruct (submit_parallel sub w); simpl in Hs; [|done].
           by injection Hs as <- <-.
         + destruct (run_task k w); simpl in Hs; [|done].
           by injection Hs as <- <-. }
  - simpl in Hs. destruct d as [|p|]; [| |done].
    + injection Hs as <- <-. exact Hinv.
    + destruct (decide (p = Done)) as [->|Hp].
      * simpl in Hs. by injection Hs as <- <-.
      * rewrite dtor_step_waiting in Hs by done.
        destruct (wait_for_all_step this (p, w)) as [[p1 w1]|] eqn:Hw;
          simpl in Hs; [|done].
        injection Hs as <- <-. destruct Hinv as (v & Hv & Hinv).
        destruct (wait_inv_step this v0 LThread p w p1 w1 v Hc Hq Hv Hinv Hw)
          as (v1 & Hv1 & Hinv1).
        by exists v1.
Qed.

Lemma dtor_inv_run this v0 (ls : list (label U A)) :
  (0 ≤ v_count v0 < UINT_MODULUS)%Z →
  quiet this ls = true →
  ∀ d w d' w',
    dtor_inv this v0 d w →
    sys_run (dtor this) ls (d, w) = Some (d', w') →
    dtor_inv this v0 d' w'.
Proof.
  intros Hc. induction ls as [|l ls IH]; intros Hq d w d' w' Hinv Hrun.
  - simpl in Hrun. by injection Hrun as <- <-.
  - apply quiet_cons in Hq as [Hl Hq]. simpl in Hrun.
    destruct (sys_step (dtor this) l (d, w)) as [[d1 w1]|] eqn:Hs;
      simpl in Hrun; [|done].
    eapply IH; [done| |done].
    by eapply dtor_inv_step.
Qed.

(** A run of [wait_for_all] to its end is a run of the destructor up to
    the point where the object is released. *)
Lemma dtor_simulates this (n : nat) :
  ∀ p w w',
    sys_run (@wait_for_all_step U A this) (replicate n LThread) (p, w)
      = Some (Done, w') →
    sys_run (dtor this) (replicate n LThread) (DWaiting p, w)
      = Some (DWaiting Done, w').
Proof.
  induction n as [|n IH]; intros p w w' Hrun.
  - simpl in *. by injection Hrun as -> ->.
  - simpl in Hrun.
    destruct (wait_for_all_step this (p, w)) as [[p1 w1]|] eqn:Hw;
      simpl in Hrun; [|done].
    assert (p ≠ Done) by (intros ->; done).
    simpl. rewrite dtor_step_waiting, Hw by done. simpl. by apply IH.
Qed.

Lemma replicate_snoc {X : Type} (n : nat) (x : X) :
  replicate n x ++ [x] = replicate (S n) x.
Proof. induction n as [|n IH]; [done|]. simpl. by rewrite IH. Qed.
End Destructor.

(** ** Submission *)

Section Submission.
Context {U A : Type}.
Implicit Types (w : world U A) (sub : submission U A).

(** What a tracked submission does, step by step. *)
Lemma submit_tracked sub w sb b :
  barrier_of sub = Some sb →
  heap w !! sb = Some b →
  ∃ t, token_of t = Some (ScopeWaiter sb)
       ∧ submit_parallel sub w =
           Some (World (<[sb := Synched (m_sem b) (wrap (m_count b + 1))]> (heap w))
                   (pool w ++ [t]) (user w)
                   ((log w ++ [EvRegister sb]) ++ [EvSpawn (Some sb)])).
Proof.
  intros Hsub Hb.
  destruct sub as [sb' f|f|sb' f ps|f ps]; simpl in Hsub; try done;
    injection Hsub as ->; simpl; unfold parallel_sb, parallel_sb_args;
    rewrite (register_lock_Some _ _ _ Hb); simpl.
  - by exists (contended_caller (ScopeWaiter sb) f).
  - by exists (forwarded_callable_sw ps f (ScopeWaiter sb)).
Qed.

(** What an untracked submission does. *)
Lemma submit_untracked sub w :
  barrier_of sub = None →
  ∃ t, token_of t = None
       ∧ submit_parallel sub w =
           Some (World (heap w) (pool w ++ [t]) (user w) (log w ++ [EvSpawn None])).
Proof.
  intros Hsub.
  destruct sub as [sb' f|f|sb' f ps|f ps]; simpl in Hsub; try done; simpl.
  - by exists (simple_caller f).
  - by exists (forwarded_callable ps f).
Qed.

(** The executor never registers. *)
Lemma run_task_no_register (k : nat) w w' (l : loc) :
  run_task k w = Some w' →
  occ (EvRegister l) (log w') = occ (EvRegister l) (log w).
Proof.
  unfold run_task. intros Hrun.
  destruct (pool w !! k) as [t|]; simpl in Hrun; [|done].
  destruct (execute t (user w)) as [u'|]; simpl in Hrun; [|done].
  unfold task_destroy, scope_waiter_destroy in Hrun.
  destruct (token_of t) as [sw|]; simpl in Hrun.
  - destruct (heap w !! mr_sem sw); simpl in Hrun; [|done].
    injection Hrun as <-. simpl. by occ_norm.
  - injection Hrun as <-. simpl. by occ_norm.
Qed.
End Submission.

(** * Further properties of the code *)

(** ** Accounting of registrations and signals *)

Section Accounting.
Context {U A : Type}.
Implicit Types (w : world U A) (v : view) (p : pc).

Lemma conserved_refl v : conserved v v.
Proof. unfold conserved. lia. Qed.

Lemma conserved_trans v1 v2 v3 :
  conserved v1 v2 → conserved v2 v3 → conserved v1 v3.
Proof. unfold conserved. lia. Qed.

(** The view after any step of the system, in all its cases. *)
Lemma sys_step_view this (l : label U A) p w p' w' v :
  view_of this w = Some v →
  sys_step (wait_for_all_step this) l (p, w) = Some (p', w') →
  ∃ v', view_of this w' = Some v' ∧ conserved v v'
        ∧ v_reg v' = (if registers_on this l then S (v_reg v) else v_reg v)
        ∧ (registers_on this l = true →
           p' = p ∧ v_count v' = wrap (v_count v + 1) ∧ v_wait v' = v_wait v
           ∧ v_reset v' = v_reset v)
        ∧ (l ≠ LThread → registers_on this l = false →
           p' = p ∧ v_count v' = v_count v ∧ v_wait v' = v_wait v
           ∧ v_reset v' = v_reset v).
Proof.
  intros Hv Hs. destruct l as [sub|k|]; simpl in Hs.
  - destruct (submit_parallel sub w) as [w1|] eqn:Hsub; simpl in Hs; [|done].
    injection Hs as <- <-. simpl.
    destruct (bool_decide (barrier_of sub = Some this)) eqn:Hon.
    + apply bool_decide_eq_true in Hon.
      eexists. split; [by eapply submit_on_view|]. simpl.
      split_and!; try done; unfold conserved; simpl; lia.
    + apply bool_decide_eq_false in Hon.
      exists v. split; [by eapply submit_off_view|].
      split_and!; try done; apply conserved_refl.
  - destruct (run_task k w) as [w1|] eqn:Hrun; simpl in Hs; [|done].
    injection Hs as <- <-.
    destruct (run_task_view this k w w1 v Hv Hrun) as (t & _ & Ht).
    destruct (decide _).
    + destruct Ht as (n & Hn & Hv1). eexists. split; [exact Hv1|]. simpl.
      split_and!; try done; unfold conserved; simpl; lia.
    + exists v. split_and!; try done; apply conserved_refl.
  - pose proof (wait_step_view this p w p' w' v Hv Hs) as Hstep.
    destruct p as [|i|i| |]; simpl in Hstep; [| | | |done].
    + destruct Hstep as [-> ->]. exists v.
      split_and!; try done; apply conserved_refl.
    + destruct Hstep as [-> ->]. exists v.
      split_and!; try done; apply conserved_refl.
    + destruct Hstep as (n & Hn & -> & Hv1). eexists. split; [exact Hv1|].
      simpl. split_and!; try done; unfold conserved; simpl; lia.
    + destruct Hstep as (-> & Hv1). eexists. split; [exact Hv1|].
      simpl. split_and!; try done; unfold conserved; simpl; lia.
Qed.

Lemma conserved_run this (ls : list (label U A)) :
  ∀ p w p' w' v,
    view_of this w = Some v →
    sys_run (wait_for_all_step this) ls (p, w) = Some (p', w') →
    ∃ v', view_of this w' = Some v' ∧ conserved v v'
          ∧ v_reg v' = v_reg v + registrations this ls.
Proof.
  induction ls as [|l ls IH]; intros p w p' w' v Hv Hrun.
  - simpl in Hrun. injection Hrun as <- <-. exists v.
    split_and!; [done | apply conserved_refl | unfold registrations; simpl; lia].
  - simpl in Hrun.
    destruct (sys_step (wait_for_all_step this) l (p, w)) as [[p1 w1]|] eqn:Hs;
      simpl in Hrun; [|done].
    destruct (sys_step_view this l p w p1 w1 v Hv Hs) as (v1 & Hv1 & Hc1 & Hr1 & _).
    destruct (IH p1 w1 p' w' v1 Hv1 Hrun) as (v' & Hv' & Hc' & Hr').
    exists v'. split_and!; [done | by eapply conserved_trans |].
    rewrite registrations_cons, Hr', Hr1. destruct (registers_on this l); lia.
Qed.
End Accounting.



(** ** A wait that races with registrations *)

Section Race.
Context {U A : Type}.
Implicit Types (w : world U A) (v : view) (p : pc).

Lemma race_inv_init v : (0 ≤ v_count v)%Z → race_inv v Idle v.
Proof.
  intros Hc. unfold race_inv. split; [apply conserved_refl|].
  rewrite Nat.sub_diag. simpl. split_and!; try done. lia.
Qed.

Lemma race_inv_step this v0 (l : label U A) p w p' w' v :
  (0 ≤ v_count v0)%Z →
  (v_count v0 + Z.of_nat (v_reg v - v_reg v0)
   + (if registers_on this l then 1 else 0) < UINT_MODULUS)%Z →
  view_of this w = Some v →
  race_inv v0 p v →
  sys_step (wait_for_all_step this) l (p, w) = Some (p', w') →
  ∃ v', view_of this w' = Some v' ∧ race_inv v0 p' v'.
Proof.
  intros Hc0 Hbound Hv [Hcons Hp] Hs.
  assert (Hge : v_reg v0 ≤ v_reg v) by (unfold conserved in Hcons; lia).
  assert (l = LThread ∨ l ≠ LThread) as [->|Hl]
    by (destruct l; [right | right | left]; done).
  - (* the waiting thread *)
    pose proof (wait_step_view this p w p' w' v Hv Hs) as Hstep.
    destruct p as [|i|i| |]; simpl in Hstep; [| | | |done].
    + destruct Hstep as [-> ->]. exists v. split; [done|].
      split; [done|]. simpl in *. lia.
    + destruct Hstep as [-> ->]. exists v. split; [done|].
      split; [done|]. simpl in Hp.
      destruct (Z.ltb_spec i (v_count v)); simpl; lia.
    + destruct Hstep as (n & Hn & -> & Hv1). eexists. split; [exact Hv1|].
      simpl in Hp, Hbound.
      split; [unfold conserved in *; simpl; lia|].
      simpl. rewrite wrap_small by lia. lia.
    + destruct Hstep as (-> & Hv1). eexists. split; [exact Hv1|].
      simpl in Hp.
      split; [unfold conserved in *; simpl; lia|].
      simpl. lia.
  - destruct (sys_step_view this l p w p' w' v Hv Hs)
      as (v' & Hv' & Hc & Hreg & Hon & Hoff).
    exists v'. split; [done|].
    split; [by eapply conserved_trans|].
    destruct (registers_on this l) eqn:Hr.
    + destruct (Hon eq_refl) as (-> & Hcnt & Hw & Hrs).
      destruct p as [|i|i| |]; simpl in *;
        try (rewrite Hcnt, wrap_small by lia); lia.
    + destruct (Hoff Hl eq_refl) as (-> & Hcnt & Hw & Hrs).
      destruct p as [|i|i| |]; simpl in *; lia.
Qed.

Lemma race_inv_run this v0 (ls : list (label U A)) :
  (0 ≤ v_count v0)%Z →
  ∀ p w p' w' v,
    (v_count v0 + Z.of_nat (v_reg v - v_reg v0)
     + Z.of_nat (registrations this ls) < UINT_MODULUS)%Z →
    view_of this w = Some v →
    race_inv v0 p v →
    sys_run (wait_for_all_step this) ls (p, w) = Some (p', w') →
    ∃ v', view_of this w' = Some v' ∧ race_inv v0 p' v'.
Proof.
  intros Hc0. induction ls as [|l ls IH]; intros p w p' w' v Hb Hv Hinv Hrun.
  - simpl in Hrun. injection Hrun as <- <-. by exists v.
  - simpl in Hrun. rewrite registrations_cons in Hb.
    destruct (sys_step (wait_for_all_step this) l (p, w)) as [[p1 w1]|] eqn:Hs;
      simpl in Hrun; [|done].
    destruct (race_inv_step this v0 l p w p1 w1 v Hc0) as (v1 & Hv1 & Hinv1);
      try done.
    { destruct (registers_on this l); lia. }
    destruct (sys_step_view this l p w p1 w1 v Hv Hs) as (v1' & Hv1' & _ & Hr1 & _).
    assert (v1' = v1) as -> by congruence.
    eapply (IH p1 w1 p' w' v1); try done.
    assert (v_reg v0 ≤ v_reg v) by (destruct Hinv as [Hc _]; unfold conserved in Hc; lia).
    rewrite Hr1. destruct (registers_on this l); lia.
Qed.
End Race.

(** X2.  A wait that runs while submitters still register, in any
    interleaving that does not overflow the counter: when it has returned it
    has consumed at least the signals its counter asked for at the call,
    and, the counter having stood for the cohort at the call, the tokens
    still pooled together with the signals left in the semaphore are at
    most the registrations made while it ran.  A wait can miss only tasks
    registered after it began. *)
Theorem X2_wait_misses_only_late_registrations :
  ∀ (U A : Type) (this : loc) (w w' : world U A) (b : synched_t)
    (ls : list (label U A)),
    heap w !! this = Some b →
    (0 ≤ m_count b)%Z →
    (m_count b + Z.of_nat (registrations this ls) < UINT_MODULUS)%Z →
    m_count b = Z.of_nat (m_sem b + outstanding this (pool w)) →
    sys_run (wait_for_all_step this) ls (Idle, w) = Some (Done, w') →
    ∃ b', heap w' !! this = Some b'
          ∧ outstanding this (pool w') + m_sem b' ≤ registrations this ls
          ∧ (Z.of_nat (occ (EvWait this) (log w)) + m_count b
             ≤ Z.of_nat (occ (EvWait this) (log w')))%Z
          ∧ occ (EvReset this) (log w') = S (occ (EvReset this) (log w)).
Proof.
  intros U A this w w' b ls Hb Hc0 Hbound Hbal Hrun.
  pose (v0 := View (m_sem b) (m_count b) (outstanding this (pool w))
                (occ (EvRegister this) (log w)) (occ (EvPost this) (log w))
                (occ (EvWait this) (log w)) (occ (EvReset this) (log w))).
  assert (Hv : view_of this w = Some v0).
  { unfold view_of. by rewrite Hb. }
  destruct (race_inv_run this v0 ls Hc0 Idle w Done w' v0) as (v' & Hv' & Hcons & Hd);
    try done.
  { simpl. rewrite Nat.sub_diag. simpl. lia. }
  { by apply race_inv_init. }
  destruct (conserved_run this ls Idle w Done w' v0 Hv Hrun) as (v1 & Hv1 & _ & Hr).
  assert (v1 = v') as -> by congruence.
  destruct (view_of_Some this w' v' Hv') as (b' & Hb' & ->).
  exists b'. unfold conserved, v0 in *. simpl in *.
  split_and!; try done; lia.
Qed.

Lemma X2_wait_misses_only_late_registrations_witness :
  ∃ b', heap w_late !! 1%positive = Some b'
        ∧ outstanding 1%positive (pool w_late) + m_sem b' ≤ 1.
Proof.
  destruct (X2_wait_misses_only_late_registrations nat nat 1%positive w_one w_late
              (Synched 0 1) late_all) as (b' & Hb' & H1 & _).
  - vm_compute. reflexivity.
  - simpl. lia.
  - unfold UINT_MODULUS. vm_compute. reflexivity.
  - reflexivity.
  - vm_compute. reflexivity.
  - exists b'. split; [exact Hb' | exact H1].
Defined.

(** X3.  The store [m_count = 0] that ends [wait_for_all] is unconditional:
    a task registered after the loop's last test and before that store is
    never counted.  The wait returns with its token pooled, the counter is
    zero, and the next wait returns at once, without a decrement, while the
    token is still pooled. *)
Theorem X3_registration_before_reset_is_lost :
  ∀ (U A : Type) (this : loc) (w : world U A) (b : synched_t)
    (sub : submission U A),
    heap w !! this = Some b →
    barrier_of sub = Some this →
    ∃ w2 w3,
      sys_run (wait_for_all_step this) [LSubmit sub; LThread] (Reset, w)
        = Some (Done, w2)
      ∧ heap w2 !! this = Some (Synched (m_sem b) 0)
      ∧ outstanding this (pool w2) = S (outstanding this (pool w))
      ∧ sys_run (wait_for_all_step this) [LThread; LThread; LThread] (Idle, w2)
          = Some (Done, w3)
      ∧ outstanding this (pool w3) = S (outstanding this (pool w))
      ∧ occ (EvWait this) (log w3) = occ (EvWait this) (log w).
Proof.
  intros U A this w b sub Hb Hsub.
  destruct (submit_tracked sub w this b Hsub Hb) as (t & Ht & Hw1).
  set (w1 := World (<[this:=Synched (m_sem b) (wrap (m_count b + 1))]> (heap w))
               (pool w ++ [t]) (user w)
               ((log w ++ [EvRegister this]) ++ [EvSpawn (Some this)])) in *.
  assert (Hb1 : heap w1 !! this = Some (Synched (m_sem b) (wrap (m_count b + 1))))
    by apply lookup_insert_eq.
  set (w2 := emit (EvReset this)
               (set_barrier this (Synched (m_sem b) 0) w1)).
  assert (Hb2 : heap w2 !! this = Some (Synched (m_sem b) 0))
    by apply lookup_insert_eq.
  exists w2. eexists. split_and!.
  - cbn [sys_run sys_step snd fst]. rewrite Hw1.
    cbn [mbind option_bind sys_step]. by rewrite (step_reset this w1 _ Hb1).
  - exact Hb2.
  - simpl. by rewrite outstanding_app, outstanding_cons, decide_True,
      outstanding_nil, Nat.add_comm by done.
  - change [LThread; LThread; LThread] with (replicate 3 (@LThread U A)).
    rewrite (sys_run_thread _ 2 _ _ (step_idle this w2)).
    rewrite (sys_run_thread _ 1 _ _ (step_test this 0 w2 _ Hb2)). simpl.
    rewrite (step_reset this w2 _ Hb2). reflexivity.
  - simpl. by rewrite outstanding_app, outstanding_cons, decide_True,
      outstanding_nil, Nat.add_comm by done.
  - simpl. by occ_norm.
Qed.

Lemma X3_registration_before_reset_is_lost_witness :
  ∃ w2 w3 : world nat nat,
    sys_run (wait_for_all_step 1%positive)
        [LSubmit (SubSb 1%positive incr); LThread] (Reset, w_fresh)
      = Some (Done, w2)
    ∧ outstanding 1%positive (pool w2) = 1
    ∧ sys_run (wait_for_all_step 1%positive) [LThread; LThread; LThread] (Idle, w2)
        = Some (Done, w3)
    ∧ outstanding 1%positive (pool w3) = 1.
Proof.
  destruct (X3_registration_before_reset_is_lost nat nat 1%positive w_fresh
              (Synched 0 0) (SubSb 1%positive incr))
    as (w2 & w3 & H1 & _ & H2 & H3 & H4 & _).
  - reflexivity.
  - reflexivity.
  - exists w2, w3. split_and!; [exact H1 | exact H2 | exact H3 | exact H4].
Defined.

(** ** The waiting thread on its own *)

Section Alone.
Context {U A : Type}.
Implicit Types (w : world U A) (v : view) (p : pc).

Lemma quiet_replicate_thread this (n : nat) :
  quiet (U:=U) (A:=A) this (replicate n LThread) = true.
Proof. induction n as [|n IH]; [done|]. simpl. exact IH. Qed.

Lemma thread_run_pool this (n : nat) :
  ∀ p w p' w',
    sys_run (@wait_for_all_step U A this) (replicate n LThread) (p, w)
      = Some (p', w') →
    pool w' = pool w.
Proof.
  induction n as [|n IH]; intros p w p' w' Hrun.
  - simpl in Hrun. by injection Hrun as <- <-.
  - simpl in Hrun.
    destruct (wait_for_all_step this (p, w)) as [[p1 w1]|] eqn:Hs;
      simpl in Hrun; [|done].
    rewrite (IH p1 w1 p' w' Hrun). by eapply wait_for_all_step_pool.
Qed.

(** With [k] signals in the semaphore and more than [k] iterations to go,
    the thread consumes the [k] signals and stops in [sem_wait]. *)
Lemma waiter_stalls this (k : nat) :
  ∀ (i : Z) w b,
    heap w !! this = Some b →
    m_sem b = k →
    (0 ≤ i)%Z → (i + Z.of_nat k < m_count b)%Z → (m_count b < UINT_MODULUS)%Z →
    ∃ w', sys_run (@wait_for_all_step U A this) (replicate (2 * k + 1) LThread)
            (Test i, w) = Some (Wait (i + Z.of_nat k), w')
          ∧ heap w' = <[this := Synched 0 (m_count b)]> (heap w)
          ∧ log w' = log w ++ replicate k (EvWait this)
          ∧ pool w' = pool w ∧ user w' = user w.
Proof.
  induction k as [|k IH]; intros i w b Hb Hk Hi Hlt Hc.
  - change (2 * 0 + 1) with 1.
    rewrite (sys_run_thread _ 0 _ _ (step_test this i w b Hb)).
    rewrite (proj2 (Z.ltb_lt i (m_count b))) by lia.
    exists w. simpl. rewrite Z.add_0_r, app_nil_r. split_and!; try done.
    rewrite insert_id; [done|]. rewrite Hb. f_equal. destruct b; simpl in *. by subst.
  - replace (2 * S k + 1) with (S (S (2 * k + 1))) by lia.
    rewrite (sys_run_thread _ _ _ _ (step_test this i w b Hb)).
    rewrite (proj2 (Z.ltb_lt i (m_count b))) by lia.
    rewrite (sys_run_thread _ _ _ _ (step_wait this i w b k Hb Hk)).
    rewrite wrap_small by lia.
    edestruct (IH (i + 1)%Z
                 (emit (EvWait this) (set_barrier this (Synched k (m_count b)) w))
                 (Synched k (m_count b)))
      as (w' & Hrun & Hh & Hl & Hp & Hu); simpl;
      [apply lookup_insert_eq | done | lia | lia | lia |].
    exists w'. replace (i + Z.of_nat (S k))%Z with (i + 1 + Z.of_nat k)%Z by lia.
    split; [exact Hrun|]. split_and!; try done.
    + rewrite Hh. simpl. by rewrite insert_insert_eq.
    + rewrite Hl. simpl. by rewrite <- app_assoc.
Qed.
End Alone.

(** X4.  When the semaphore already holds at least [m_count] signals (the
    tasks finished before anybody waits), [wait_for_all] does not block: the
    thread on its own returns after [2 * m_count + 3] steps, having done
    exactly [m_count] decrements and one reset; it leaves the surplus
    signals in the semaphore and touches neither another barrier, nor the
    pool, nor the state of the callables. *)
Theorem X4_wait_alone_returns :
  ∀ (U A : Type) (this : loc) (w : world U A) (b : synched_t),
    heap w !! this = Some b →
    (0 ≤ m_count b < UINT_MODULUS)%Z →
    (m_count b ≤ Z.of_nat (m_sem b))%Z →
    ∃ w', sys_run (wait_for_all_step this)
            (replicate (2 * Z.to_nat (m_count b) + 3) LThread) (Idle, w)
            = Some (Done, w')
          ∧ heap w' = <[this := Synched (m_sem b - Z.to_nat (m_count b)) 0]> (heap w)
          ∧ log w' = log w ++ replicate (Z.to_nat (m_count b)) (EvWait this)
                       ++ [EvReset this]
          ∧ pool w' = pool w ∧ user w' = user w.
Proof.
  intros U A this w b Hb Hc Hs.
  destruct (waiter_drains this (Z.to_nat (m_count b)) 0 w b) as (w' & Hr & Hrest);
    [done | lia | lia | lia | lia |].
  exists w'. split; [|exact Hrest].
  replace (2 * Z.to_nat (m_count b) + 3) with (S (2 * Z.to_nat (m_count b) + 2))
    by lia.
  by rewrite (sys_run_thread _ _ _ _ (step_idle this w)).
Qed.

Lemma X4_wait_alone_returns_witness :
  ∃ w', sys_run (wait_for_all_step 1%positive) (replicate 7 LThread) (Idle, w_two_ran)
          = Some (Done, w')
        ∧ heap w' !! 1%positive = Some (Synched 0 0)
        ∧ pool w' = [] ∧ user w' = 142.
Proof.
  destruct (X4_wait_alone_returns nat nat 1%positive w_two_ran (Synched 2 2))
    as (w' & H1 & H2 & _ & H3 & H4).
  - vm_compute. reflexivity.
  - unfold UINT_MODULUS. simpl. lia.
  - simpl. lia.
  - exists w'. split_and!.
    + exact H1.
    + rewrite H2. apply lookup_insert_eq.
    + rewrite H3. reflexivity.
    + rewrite H4. reflexivity.
Defined.

(** X5.  When the semaphore holds fewer signals than [m_count] and nobody
    signals, [wait_for_all] never returns: the thread consumes the signals
    there are, [m_sem] of them, and then stops in [sem_wait] of iteration
    [m_sem], where it has no step; however many steps it is given, it is
    not done. *)
Theorem X5_wait_alone_blocks :
  ∀ (U A : Type) (this : loc) (w : world U A) (b : synched_t),
    heap w !! this = Some b →
    (0 ≤ m_count b < UINT_MODULUS)%Z →
    (Z.of_nat (m_sem b) < m_count b)%Z →
    (∃ w', sys_run (wait_for_all_step this) (replicate (2 * m_sem b + 2) LThread)
             (Idle, w) = Some (Wait (Z.of_nat (m_sem b)), w')
           ∧ heap w' = <[this := Synched 0 (m_count b)]> (heap w)
           ∧ log w' = log w ++ replicate (m_sem b) (EvWait this)
           ∧ wait_for_all_step this (Wait (Z.of_nat (m_sem b)), w') = None)
    ∧ ∀ n p' w',
        sys_run (wait_for_all_step this) (replicate n LThread) (Idle, w)
          = Some (p', w') →
        p' ≠ Done.
Proof.
  intros U A this w b Hb Hc Hlt. split.
  - destruct (waiter_stalls this (m_sem b) 0 w b) as (w' & Hr & Hh & Hl & _);
      [done | done | lia | lia | lia |].
    exists w'. split_and!; try done.
    + replace (2 * m_sem b + 2) with (S (2 * m_sem b + 1)) by lia.
      by rewrite (sys_run_thread _ _ _ _ (step_idle this w)).
    + eapply wait_step_None.
      * rewrite Hh. apply lookup_insert_eq.
      * right. split; [by eexists | done].
  - intros n p' w' Hrun ->.
    pose (v0 := View (m_sem b) (m_count b) (outstanding this (pool w))
                  (occ (EvRegister this) (log w)) (occ (EvPost this) (log w))
                  (occ (EvWait this) (log w)) (occ (EvReset this) (log w))).
    assert (Hv : view_of this w = Some v0).
    { unfold view_of. by rewrite Hb. }
    destruct (wait_inv_run this v0 (replicate n LThread) Hc
                (quiet_replicate_thread this n) Idle w Done w' v0 Hv
                (wait_inv_init v0) Hrun)
      as (v' & Hv' & Hreg & Hpost & Hsem & Hcnt & Hwait & Hreset).
    destruct (view_of_Some this w' v' Hv') as (b' & Hb' & ->).
    pose proof (thread_run_pool this n Idle w Done w' Hrun) as Hpool.
    unfold v0 in *. simpl in *. rewrite Hpool in Hpost. lia.
Qed.

Lemma X5_wait_alone_blocks_witness :
  (∃ w', sys_run (wait_for_all_step 1%positive) (replicate 2 LThread) (Idle, w_two)
           = Some (Wait 0, w')
         ∧ wait_for_all_step 1%positive (Wait 0, w') = None)
  ∧ Test 0 ≠ Done.
Proof.
  destruct (X5_wait_alone_blocks nat nat 1%positive w_two (Synched 0 2))
    as ((w' & H1 & _ & _ & H2) & Hnever).
  - vm_compute. reflexivity.
  - unfold UINT_MODULUS. simpl. lia.
  - simpl. lia.
  - split.
    + exists w'. split; [exact H1 | exact H2].
    + apply (Hnever 1 (Test 0) w_two). reflexivity.
Defined.

(** X6.  A barrier can be used for one cohort after the other.  When a
    wait over a barrier whose counter stood for its cohort, during which
    nobody registered against the barrier, has returned, the barrier is as
    the constructor leaves it, [m_sem = 0] and [m_count = 0], and no pooled
    task holds a token of it.  If [N < 2^32] tasks are then submitted
    against it and a second wait runs, again while nobody registers, that
    wait has returned only when all [N] have signalled, and has then done
    exactly [N] decrements. *)
Theorem X6_barrier_is_reusable :
  ∀ (U A : Type) (this : loc) (w w1 w2 w3 : world U A) (b : synched_t)
    (ls1 ls2 ls3 : list (label U A)) (N : nat) (p : pc),
    heap w !! this = Some b →
    (0 ≤ m_count b < UINT_MODULUS)%Z →
    m_count b = Z.of_nat (m_sem b + outstanding this (pool w)) →
    quiet this ls1 = true →
    sys_run (wait_for_all_step this) ls1 (Idle, w) = Some (Done, w1) →
    no_thread ls2 = true →
    registrations this ls2 = N →
    (Z.of_nat N < UINT_MODULUS)%Z →
    sys_run (wait_for_all_step this) ls2 (Idle, w1) = Some (Idle, w2) →
    quiet this ls3 = true →
    sys_run (wait_for_all_step this) ls3 (Idle, w2) = Some (p, w3) →
    heap w1 !! this = Some (Synched 0 0)
    ∧ outstanding this (pool w1) = 0
    ∧ (p = Done →
       outstanding this (pool w3) = 0
       ∧ occ (EvWait this) (log w3) = occ (EvWait this) (log w1) + N
       ∧ occ (EvPost this) (log w3) = occ (EvPost this) (log w1) + N).
Proof.
  intros U A this w w1 w2 w3 b ls1 ls2 ls3 N p Hb Hc Hbal Hq1 Hrun1 Hnt HN Hlt
    Hrun2 Hq3 Hrun3.
  pose (v0 := View (m_sem b) (m_count b) (outstanding this (pool w))
                (occ (EvRegister this) (log w)) (occ (EvPost this) (log w))
                (occ (EvWait this) (log w)) (occ (EvReset this) (log w))).
  assert (Hv : view_of this w = Some v0).
  { unfold view_of. by rewrite Hb. }
  destruct (wait_balanced this ls1 w v0 Done w1 Hc Hbal Hv Hq1 Hrun1)
    as (v1 & Hv1 & Hinv1 & Hdone1 & _).
  destruct (Hdone1 eq_refl) as [Hout1 Hsem1].
  destruct Hinv1 as (_ & _ & _ & Hcnt1 & _).
  destruct (view_of_Some this w1 v1 Hv1) as (b1 & Hb1 & Hvb1).
  assert (Hb1' : b1 = Synched 0 0).
  { subst v1. simpl in *. destruct b1; simpl in *. by subst. }
  subst b1. split; [exact Hb1|]. split; [by subst v1|].
  destruct (λ Hc', cohort_run (wait_for_all_step this) this ls2 Hnt Idle Idle
              w1 w2 v1 Hc' Hv1 Hrun2)
    as (_ & v2 & Hv2 & Hreg & Hcnt & Hsem & Hpost & Hwait & Hreset).
  { rewrite Hcnt1. unfold UINT_MODULUS. lia. }
  rewrite Hcnt1, HN in Hcnt. rewrite wrap_small in Hcnt by lia. rewrite HN in *.
  destruct (wait_balanced this ls3 w2 v2 p w3) as (v3 & Hv3 & Hinv & Hdone & _);
    try done; [lia | lia |].
  destruct (view_of_Some this w3 v3 Hv3) as (b3 & Hb3 & Hvb3).
  intros ->. destruct (Hdone eq_refl) as [Ho Hs].
  destruct Hinv as (Hreg3 & Hpost3 & Hsem3 & Hcnt3 & Hwt3 & Hr3).
  subst v1 v3. simpl in *. lia.
Qed.

Lemma X6_barrier_is_reusable_witness :
  heap w_one_done !! 1%positive = Some (Synched 0 0)
  ∧ outstanding 1%positive (pool w_one_done) = 0
  ∧ outstanding 1%positive (pool w_gen2_done) = 0
  ∧ occ (EvWait 1%positive) (log w_gen2_done)
    = occ (EvWait 1%positive) (log w_one_done) + 1.
Proof.
  destruct (X6_barrier_is_reusable nat nat 1%positive w_one w_one_done w_gen2
              w_gen2_done (Synched 0 1) one_task_wait one_task one_task_wait 1 Done)
    as (H1 & H2 & H3).
  - vm_compute. reflexivity.
  - unfold UINT_MODULUS. simpl. lia.
  - reflexivity.
  - reflexivity.
  - vm_compute. reflexivity.
  - reflexivity.
  - reflexivity.
  - unfold UINT_MODULUS. lia.
  - vm_compute. reflexivity.
  - reflexivity.
  - vm_compute. reflexivity.
  - destruct (H3 eq_refl) as (H4 & H5 & _).
    split_and!; [exact H1 | exact H2 | exact H4 | exact H5].
Defined.

(** ** Two barriers *)

Section TwoBarriers.
Context {U A : Type}.
Implicit Types (w : world U A) (v : view) (p : pc).


End TwoBarriers.





(** ** After the barrier is gone *)

Section Released.
Context {U A : Type}.
Implicit Types (w : world U A) (d : dpc).

Lemma outstanding_zero this (ts : list (task U A)) :
  outstanding this ts = 0 ↔ ∀ t, t ∈ ts → token_of t ≠ Some (ScopeWaiter this).
Proof.
  induction ts as [|t ts IH].
  - split; [|done]. intros _ t Ht. by apply elem_of_nil in Ht.
  - rewrite outstanding_cons. destruct (decide _) as [Hd|Hd].
    + split; [lia|]. intros Hall. exfalso. apply (Hall t); [left | done].
    + simpl. rewrite IH. split.
      * intros Hall t' [->|Ht']%elem_of_cons; [done | by apply Hall].
      * intros Hall t' Ht'. apply Hall. by right.
Qed.

(** Once the barrier is out of the store and no pooled task references it,
    the steps of submitters and executor keep it so and never post to it. *)
Lemma released_step this (l : label U A) d w d' w' :
  heap w !! this = None →
  outstanding this (pool w) = 0 →
  registers_on this l = false →
  sys_step (synched_destroy_step this) l (d, w) = Some (d', w') →
  d = DGone →
  d' = DGone
  ∧ heap w' !! this = None
  ∧ outstanding this (pool w') = 0
  ∧ occ (EvPost this) (log w') = occ (EvPost this) (log w).
Proof.
  intros Hh Hout Hq Hs ->. destruct l as [sub|k|]; simpl in Hs; [| |done].
  - destruct (submit_parallel sub w) as [w1|] eqn:Hsub; simpl in Hs; [|done].
    injection Hs as <- <-. split; [done|].
    simpl in Hq. apply bool_decide_eq_false in Hq.
    destruct (barrier_of sub) as [sb|] eqn:Hbar.
    + assert (sb ≠ this) by congruence.
      destruct (heap w !! sb) as [b|] eqn:Hb.
      * destruct (submit_tracked sub w sb b Hbar Hb) as (t & Ht & Hw1).
        rewrite Hw1 in Hsub. injection Hsub as <-. simpl.
        rewrite lookup_insert_ne by done.
        rewrite outstanding_app, outstanding_cons, decide_False, outstanding_nil
          by (rewrite Ht; congruence).
        occ_norm. split_and!; try done; lia.
      * destruct sub as [sb' f|f|sb' f ps|f ps]; simpl in Hbar; try done;
          injection Hbar as ->; simpl in Hsub;
          unfold parallel_sb, parallel_sb_args, register_lock in Hsub;
          rewrite Hb in Hsub; done.
    + destruct (submit_untracked sub w Hbar) as (t & Ht & Hw1).
      rewrite Hw1 in Hsub. injection Hsub as <-. simpl.
      rewrite outstanding_app, outstanding_cons, decide_False, outstanding_nil
        by (rewrite Ht; congruence).
      occ_norm. split_and!; try done; lia.
  - unfold run_task in Hs.
    destruct (pool w !! k) as [t|] eqn:Hk; simpl in Hs; [|done].
    destruct (execute t (user w)) as [o|]; simpl in Hs; [|done].
    destruct (task_destroy t _) as [w1|] eqn:Hd; simpl in Hs; [|done].
    injection Hs as <- <-. split; [done|].
    pose proof (outstanding_delete this (pool w) k t Hk) as Hdel.
    destruct (decide (token_of t = Some (ScopeWaiter this))) as [Ht|Ht]; [lia|].
    unfold task_destroy, scope_waiter_destroy in Hd.
    destruct (token_of t) as [[l]|]; simpl in Hd.
    + assert (l ≠ this) by congruence.
      destruct (heap w !! l) as [bl|]; simpl in Hd; [|done].
      injection Hd as <-. simpl. rewrite lookup_insert_ne by done.
      occ_norm. split_and!; try done; lia.
    + injection Hd as <-. simpl. occ_norm. split_and!; try done; lia.
Qed.

Lemma released_run this (ls : list (label U A)) :
  quiet this ls = true →
  ∀ w d' w',
    heap w !! this = None →
    outstanding this (pool w) = 0 →
    sys_run (synched_destroy_step this) ls (DGone, w) = Some (d', w') →
    d' = DGone
    ∧ heap w' !! this = None
    ∧ outstanding this (pool w') = 0
    ∧ occ (EvPost this) (log w') = occ (EvPost this) (log w).
Proof.
  induction ls as [|l ls IH]; intros Hq w d' w' Hh Hout Hrun.
  - simpl in Hrun. by injection Hrun as <- <-.
  - apply quiet_cons in Hq as [Hl Hq]. simpl in Hrun.
    destruct (sys_step (synched_destroy_step this) l (DGone, w)) as [[d1 w1]|] eqn:Hs;
      simpl in Hrun; [|done].
    destruct (released_step this l DGone w d1 w1 Hh Hout Hl Hs eq_refl)
      as (-> & Hh1 & Hout1 & Hocc1).
    destruct (IH Hq w1 d' w' Hh1 Hout1 Hrun) as (-> & Hh' & Hout' & Hocc').
    split_and!; try done. lia.
Qed.
End Released.

(** X9.  No token outlives its barrier, as long as nobody registers
    against the barrier while it is being destroyed.  When the destructor
    of a barrier whose counter stood for its cohort has released the
    object, no task having been registered against it during the
    destruction, then in whatever the submitters and the executor do
    afterwards (short of submitting against the dead barrier) no pooled
    wrapper holds a token that references it and no [sem_post] is ever
    made on it: its semaphore is not used after it is gone. *)
Theorem X9_no_signal_after_release :
  ∀ (U A : Type) (this : loc) (w w' w'' w3 : world U A) (b : synched_t)
    (ls ls' : list (label U A)) (d' d3 : dpc),
    heap w !! this = Some b →
    (0 ≤ m_count b < UINT_MODULUS)%Z →
    m_count b = Z.of_nat (m_sem b + outstanding this (pool w)) →
    quiet this ls = true →
    sys_run (synched_destroy_step this) ls (DLive, w) = Some (d', w') →
    synched_destroy_step this (d', w') = Some (DGone, w'') →
    quiet this ls' = true →
    sys_run (synched_destroy_step this) ls' (DGone, w'') = Some (d3, w3) →
    d3 = DGone
    ∧ heap w3 !! this = None
    ∧ (∀ t, t ∈ pool w3 → token_of t ≠ Some (ScopeWaiter this))
    ∧ occ (EvPost this) (log w3) = occ (EvPost this) (log w'').
Proof.
  intros U A this w w' w'' w3 b ls ls' d' d3 Hb Hc Hbal Hq Hrun Hstep Hq' Hrun'.
  pose (v0 := View (m_sem b) (m_count b) (outstanding this (pool w))
                (occ (EvRegister this) (log w)) (occ (EvPost this) (log w))
                (occ (EvWait this) (log w)) (occ (EvReset this) (log w))).
  assert (Hv : view_of this w = Some v0).
  { unfold view_of. by rewrite Hb. }
  assert (Hinv : dtor_inv this v0 d' w').
  { eapply (dtor_inv_run this v0 ls Hc Hq DLive w); [|done].
    exists v0. split; [done | apply wait_inv_init]. }
  assert (Hgone : heap w'' !! this = None ∧ outstanding this (pool w'') = 0).
  { destruct d' as [|p|]; [done| |done].
    destruct (decide (p = Done)) as [->|Hp].
    - simpl in Hstep. injection Hstep as <-.
      destruct Hinv as (v & Hv' & Hreg & Hpost & Hsem & Hcnt & Hwait & Hreset).
      destruct (view_of_Some this w' v Hv') as (b' & Hb' & ->).
      unfold v0 in *. simpl in *. split; [apply lookup_delete_eq | lia].
    - rewrite dtor_step_waiting in Hstep by done.
      destruct (wait_for_all_step this (p, w')) as [[p1 w1]|]; done. }
  destruct Hgone as [Hh Hout].
  destruct (released_run this ls' Hq' w'' d3 w3 Hh Hout Hrun')
    as (-> & Hh3 & Hout3 & Hocc3).
  split_and!; try done. by apply outstanding_zero.
Qed.

Lemma X9_no_signal_after_release_witness :
  heap w_after_scope !! 1%positive = None
  ∧ occ (EvPost 1%positive) (log w_after_scope) = 2
  ∧ user w_after_scope = 44.
Proof.
  destruct (X9_no_signal_after_release nat nat 1%positive w_two w_two_waited
              w_two_gone w_after_scope (Synched 0 2) two_tasks_scope_exit
              after_scope (DWaiting Done) DGone) as (_ & H1 & _ & H2).
  - vm_compute. reflexivity.
  - unfold UINT_MODULUS. simpl. lia.
  - reflexivity.
  - reflexivity.
  - vm_compute. reflexivity.
  - vm_compute. reflexivity.
  - reflexivity.
  - vm_compute. reflexivity.
  - split_and!; [exact H1 | rewrite H2; reflexivity | reflexivity].
Defined.

(** X10.  The tuple expansion at any depth: [applyTuple n f t args] exists
    exactly when [n] is at most the size of the tuple, and then it is the
    call of [f] on the first [n] components of [t], in their order,
    followed by the pack [args] built so far. *)
Theorem X10_applyTuple_expands_prefix :
  ∀ (A R : Type) (f : list A → R) (t : list A) (n : nat) (args : list A),
    applyTuple n f t args =
      if decide (n ≤ length t) then Some (f (take n t ++ args)) else None.
Proof.
  intros A R f t n args. destruct (decide (n ≤ length t)) as [Hn|Hn].
  - by apply applyTuple_take.
  - destruct n as [|n]; [lia|]. simpl.
    rewrite (lookup_ge_None_2 t n) by lia. done.
Qed.

(** X11.  A scope without tasks costs one reset and never blocks: the
    destructor of a barrier that was just constructed completes in five
    steps of its own thread, without a [sem_wait]; the barrier is out of
    the store, which is as before the construction when the address was
    free, and pool and callable state are untouched. *)
Theorem X11_empty_scope_does_not_block :
  ∀ (U A : Type) (this : loc) (w : world U A),
    ∃ w', sys_run (synched_destroy_step this) (replicate 5 LThread)
            (DLive, synched_new this w) = Some (DGone, w')
          ∧ heap w' = delete this (heap w)
          ∧ (heap w !! this = None → heap w' = heap w)
          ∧ pool w' = pool w ∧ user w' = user w
          ∧ log w' = log w ++ [EvReset this].
Proof.
  intros U A this w.
  assert (Hb : heap (synched_new this w) !! this = Some (Synched 0 0))
    by apply lookup_insert_eq.
  pose proof (step_reset this (synched_new this w) _ Hb) as Hreset.
  eexists. split.
  - rewrite (sys_run_thread _ 4 (DLive, synched_new this w)
               (DWaiting Idle, synched_new this w) eq_refl).
    rewrite (sys_run_thread _ 3 _ (DWaiting (Test 0), synched_new this w))
      by (by rewrite dtor_step_waiting, step_idle).
    rewrite (sys_run_thread _ 2 _ (DWaiting Reset, synched_new this w))
      by (by rewrite dtor_step_waiting, (step_test this 0 _ _ Hb)).
    rewrite (sys_run_thread _ 1 _ (DWaiting Done, _))
      by (by rewrite dtor_step_waiting, Hreset).
    reflexivity.
  - simpl. rewrite insert_insert_eq, delete_insert_eq.
    split_and!; try done. intros Hnone. by apply delete_id.
Qed.

Lemma X11_empty_scope_does_not_block_witness :
  ∃ w', sys_run (synched_destroy_step 1%positive) (replicate 5 LThread)
          (DLive, w_fresh) = Some (DGone, w')
        ∧ heap w' = heap w_empty
        ∧ log w' = [EvReset 1%positive].
Proof.
  destruct (X11_empty_scope_does_not_block nat nat 1%positive w_empty)
    as (w' & H1 & _ & H2 & _ & _ & H3).
  exists w'. split_and!; [exact H1 | apply H2; reflexivity | exact H3].
Defined.

(** * The properties that depend on capacity and on the executor *)

(** ** How the steps over the POSIX semaphore change the view of a barrier *)

Section PosixViews.
Context {U A : Type}.
Implicit Types (w : world U A) (t : task U A) (v : view).

Lemma sem_post_posix_below (b : synched_t) :
  (Z.of_nat (m_sem b) < SEM_VALUE_MAX)%Z → sem_post_posix b = sem_post b.
Proof.
  intros Hb. unfold sem_post_posix, sem_post.
  by rewrite (proj2 (Z.ltb_lt _ _) Hb).
Qed.

Lemma sem_post_posix_full (b : synched_t) :
  (SEM_VALUE_MAX ≤ Z.of_nat (m_sem b))%Z → sem_post_posix b = b.
Proof.
  intros Hb. unfold sem_post_posix.
  by rewrite (proj2 (Z.ltb_ge _ _) Hb).
Qed.


Lemma task_release_pool t w w' : task_release t w = Some w' → pool w' = pool w.
Proof.
  unfold task_release, scope_waiter_release.
  destruct (token_of t) as [sw|]; simpl.
  - destruct (heap w !! mr_sem sw); simpl; [|done]. by intros [= <-].
  - by intros [= <-].
Qed.

(** The executor runs a pooled task to its return: if its token references
    [this] one token leaves the pool and one [sem_post] is made, which adds
    a signal unless the semaphore is full; otherwise the view is unchanged. *)
Lemma executor_step_view this k w w' v :
  view_of this w = Some v →
  executor_step k w = Some w' →
  ∃ t, pool w !! k = Some t
       ∧ if decide (token_of t = Some (ScopeWaiter this))
         then ∃ n, v_out v = S n
                   ∧ view_of this w' =
                       Some (View (if (Z.of_nat (v_sem v) <? SEM_VALUE_MAX)%Z
                                   then S (v_sem v) else v_sem v)
                               (v_count v) n (v_reg v)
                               (S (v_post v)) (v_wait v) (v_reset v))
         else view_of this w' = Some v.
Proof.
  intros (b & Hb & ->)%view_of_Some Hw'. unfold executor_step in Hw'.
  destruct (pool w !! k) as [t|] eqn:Hk; simpl in Hw'; [|done].
  destruct (execute t (user w)) as [[u'|u']|]; simpl in Hw'; [|done..].
  exists t. split; [done|].
  pose proof (outstanding_delete this (pool w) k t Hk) as Hout.
  unfold task_release in Hw'. destruct (decide _) as [Ht|Ht].
  - rewrite Ht in Hw'. unfold scope_waiter_release in Hw'. simpl in Hw'.
    rewrite Hb in Hw'. simpl in Hw'. injection Hw' as <-.
    exists (outstanding this (delete k (pool w))). simpl. split; [lia|].
    unfold view_of. simpl. rewrite lookup_insert_eq. simpl.
    occ_norm. unfold sem_post_posix.
    destruct (Z.of_nat (m_sem b) <? SEM_VALUE_MAX)%Z; done.
  - destruct (token_of t) as [[l]|] eqn:Htok.
    + assert (l ≠ this) by congruence.
      unfold scope_waiter_release in Hw'. simpl in Hw'.
      destruct (heap w !! l) as [b'|]; simpl in Hw'; [|done].
      injection Hw' as <-. unfold view_of. simpl.
      rewrite lookup_insert_ne, Hb by done. simpl.
      occ_norm. by repeat (f_equal; try lia).
    + injection Hw' as <-. unfold view_of. simpl. rewrite Hb. simpl.
      occ_norm. by repeat (f_equal; try lia).
Qed.

(** A schedule of the barrier's own thread is the same over both systems. *)
Lemma posix_run_thread_only {T : Type}
    (thr : T * world U A → option (T * world U A)) (n : nat) (s : T * world U A) :
  posix_run thr (replicate n LThread) s = sys_run thr (replicate n LThread) s.
Proof.
  revert s. induction n as [|n IH]; intros s; simpl; [done|].
  destruct (thr s) as [s1|]; simpl; [apply IH | done].
Qed.

End PosixViews.

(** ** The invariant of a wait over the POSIX semaphore *)

Section PosixInvariant.
Context {U A : Type}.
Implicit Types (w : world U A) (v : view) (p : pc).

Local Abbreviation waiter this := (@wait_for_all_step U A this).

Lemma posix_inv_init v : posix_inv v Idle v.
Proof. unfold posix_inv. simpl. split_and!; try done. Qed.

(** Steps of the submitters and of the executor, whatever thread owns the
    barrier. *)
Lemma posix_inv_env {T : Type} (thr : T * world U A → option (T * world U A))
    this v0 (l : label U A) (s s' : T) w w' p v :
  registers_on this l = false →
  l ≠ LThread →
  view_of this w = Some v →
  posix_inv v0 p v →
  posix_step thr l (s, w) = Some (s', w') →
  s' = s ∧ ∃ v', view_of this w' = Some v' ∧ posix_inv v0 p v'.
Proof.
  intros Hq Hl Hv (Hreg & Hpost & Hle & Heq & Hmono & Hp) Hs.
  destruct l as [sub|k|]; [| |done]; simpl in Hs.
  - (* a submission elsewhere *)
    destruct (submit_parallel sub w) as [w1|] eqn:Hsub; simpl in Hs; [|done].
    injection Hs as <- <-. split; [done|]. exists v. split; [|done].
    eapply submit_off_view; [|done..].
    simpl in Hq. by apply bool_decide_eq_false in Hq.
  - (* the executor runs a task *)
    destruct (executor_step k w) as [w1|] eqn:Hrun; simpl in Hs; [|done].
    injection Hs as <- <-. split; [done|].
    destruct (executor_step_view this k w w1 v Hv Hrun) as (t & _ & Ht).
    destruct (decide _).
    + destruct Ht as (n & Hn & ->). eexists. split; [done|].
      unfold posix_inv. simpl.
      destruct (Z.ltb_spec (Z.of_nat (v_sem v)) SEM_VALUE_MAX) as [Hlt|Hge];
        split_and!; try lia;
        try (intros Hcap; specialize (Heq Hcap); lia);
        destruct p; simpl in *; done.
    + exists v. done.
Qed.

(** Every step of a schedule that does not register against [this]
    preserves the invariant. *)
Lemma posix_inv_step this v0 l p w p' w' v :
  (0 ≤ v_count v0 < UINT_MODULUS)%Z →
  registers_on this l = false →
  view_of this w = Some v →
  posix_inv v0 p v →
  posix_step (waiter this) l (p, w) = Some (p', w') →
  ∃ v', view_of this w' = Some v' ∧ posix_inv v0 p' v'.
Proof.
  intros Hc Hq Hv Hinv Hs.
  assert (l = LThread ∨ l ≠ LThread) as [->|Hl]
    by (destruct l; [right | right | left]; done).
  2: { destruct (posix_inv_env _ this v0 l p p' w w' p v Hq Hl Hv Hinv Hs)
         as (-> & Hv'). exact Hv'. }
  destruct Hinv as (Hreg & Hpost & Hle & Heq & Hmono & Hp). simpl in Hs.
  pose proof (wait_step_view this p w p' w' v Hv Hs) as Hstep.
  destruct p as [|i|i| |]; simpl in Hstep.
  - destruct Hstep as [-> ->]. exists v. split; [done|].
    unfold posix_inv. simpl in *. split_and!; try done; lia.
  - destruct Hstep as [-> ->]. exists v. split; [done|].
    unfold posix_inv. split_and!; try done.
    destruct Hp as (Hcv & Hi & Hw & Hr). rewrite Hcv.
    destruct (Z.ltb_spec i (v_count v0)); simpl; split_and!; try done; lia.
  - destruct Hstep as (n & Hn & -> & ->). eexists. split; [done|].
    destruct Hp as (Hcv & Hi & Hw & Hr).
    rewrite wrap_small by lia.
    unfold posix_inv. simpl.
    split_and!; try done; try lia; intros Hcap; specialize (Heq Hcap); lia.
  - destruct Hstep as (-> & ->). eexists. split; [done|].
    destruct Hp as (Hcv & Hw & Hr).
    unfold posix_inv. simpl. split_and!; try done; lia.
  - done.
Qed.

(** The invariant holds along every quiet schedule. *)
Lemma posix_inv_run this v0 ls :
  (0 ≤ v_count v0 < UINT_MODULUS)%Z →
  quiet this ls = true →
  ∀ p w p' w' v,
    view_of this w = Some v →
    posix_inv v0 p v →
    posix_run (waiter this) ls (p, w) = Some (p', w') →
    ∃ v', view_of this w' = Some v' ∧ posix_inv v0 p' v'.
Proof.
  intros Hc. induction ls as [|l ls IH]; intros Hq p w p' w' v Hv Hinv Hrun.
  - simpl in Hrun. injection Hrun as <- <-. by exists v.
  - apply quiet_cons in Hq as [Hl Hq]. simpl in Hrun.
    destruct (posix_step (waiter this) l (p, w)) as [[p1 w1]|] eqn:Hs;
      simpl in Hrun; [|done].
    destruct (posix_inv_step this v0 l p w p1 w1 v Hc Hl Hv Hinv Hs)
      as (v1 & Hv1 & Hinv1).
    by eapply IH.
Qed.

(** Over a balanced barrier whose count fits in the semaphore, once the
    pool holds no token the semaphore holds what the loop still needs. *)
Lemma posix_inv_finishes this v0 p w v :
  (0 ≤ v_count v0 ≤ SEM_VALUE_MAX)%Z →
  v_count v0 = Z.of_nat (v_sem v0 + v_out v0) →
  view_of this w = Some v →
  posix_inv v0 p v →
  v_out v = 0 →
  ∃ n w', posix_run (waiter this) (replicate n LThread) (p, w) = Some (Done, w').
Proof.
  intros Hc Hbal Hv (Hreg & Hpost & Hle & Heq & Hmono & Hp) Hout.
  assert (Hsem : v_sem v + v_wait v + v_post v0 = v_sem v0 + v_wait v0 + v_post v)
    by (apply Heq; lia).
  destruct (view_of_Some this w v Hv) as (b & Hb & Hvb).
  destruct (waiter_finishes this p w b Hb) as (n & w' & Hrun).
  - subst v. simpl in *. unfold SEM_VALUE_MAX, UINT_MODULUS in *.
    destruct p; simpl in Hp; destruct Hp as (Hcnt & _); rewrite Hcnt; lia.
  - subst v. simpl in *. destruct p; simpl in *; lia.
  - exists n, w'. by rewrite posix_run_thread_only.
Qed.

(** A wait over a balanced barrier: it has returned only if no token is
    left in the pool, and, when the count fits in the semaphore, once no
    token is left it does return. *)
Lemma posix_wait_balanced this ls w v0 p' w' :
  (0 ≤ v_count v0 < UINT_MODULUS)%Z →
  (Z.of_nat (v_sem v0 + v_out v0) ≤ v_count v0)%Z →
  view_of this w = Some v0 →
  quiet this ls = true →
  posix_run (waiter this) ls (Idle, w) = Some (p', w') →
  ∃ v', view_of this w' = Some v'
        ∧ posix_inv v0 p' v'
        ∧ (p' = Done → v_out v' = 0 ∧ v_sem v' = 0)
        ∧ (v_count v0 = Z.of_nat (v_sem v0 + v_out v0) →
           (v_count v0 ≤ SEM_VALUE_MAX)%Z →
           v_out v' = 0 →
           ∃ n w'', posix_run (waiter this) (replicate n LThread) (p', w')
                      = Some (Done, w'')).
Proof.
  intros Hc Hbal Hv Hq Hrun.
  destruct (posix_inv_run this v0 ls Hc Hq Idle w p' w' v0 Hv (posix_inv_init v0) Hrun)
    as (v' & Hv' & Hinv).
  exists v'. split_and!; try done.
  - intros ->. destruct Hinv as (Hreg & Hpost & Hle & Heq & Hmono & Hcnt & Hw & Hr). lia.
  - intros Heqb Hcap Hout. eapply posix_inv_finishes; try done. lia.
Qed.
End PosixInvariant.

(** ** Before the wait, over the POSIX semaphore *)

Section PosixCohort.
Context {U A T : Type}.
Implicit Types (w : world U A) (v : view).
Variable thr : T * world U A → option (T * world U A).

(** While the owner of the barrier does nothing, [n] registrations leave
    the counter at [m_count + n] modulo [2^32]; every token is either still
    pooled or has posted, and the semaphore holds all the signals posted
    when they fit in it. *)
Lemma posix_cohort_run this ls :
  no_thread ls = true →
  ∀ (s s' : T) w w' v,
    (0 ≤ v_count v < UINT_MODULUS)%Z →
    view_of this w = Some v →
    posix_run thr ls (s, w) = Some (s', w') →
    s' = s
    ∧ ∃ v', view_of this w' = Some v'
            ∧ v_reg v' = v_reg v + registrations this ls
            ∧ v_count v' = wrap (v_count v + Z.of_nat (registrations this ls))
            ∧ v_sem v' + v_post v ≤ v_sem v + v_post v'
            ∧ ((Z.of_nat (v_sem v + v_out v + registrations this ls)
                ≤ SEM_VALUE_MAX)%Z →
               v_sem v' + v_post v = v_sem v + v_post v')
            ∧ v_post v' + v_out v' = v_post v + v_out v + registrations this ls
            ∧ v_wait v' = v_wait v ∧ v_reset v' = v_reset v.
Proof.
  induction ls as [|l ls IH]; intros Hnt s s' w w' v Hc Hv Hrun.
  - simpl in Hrun. injection Hrun as <- <-. split; [done|].
    exists v. unfold registrations. simpl.
    rewrite Z.add_0_r, wrap_small by done. split_and!; try done; lia.
  - simpl in Hnt. apply andb_true_iff in Hnt as [Hl Hnt].
    simpl in Hrun. rewrite registrations_cons.
    destruct l as [sub|k|]; [| |done]; simpl in Hrun.
    + destruct (submit_parallel sub w) as [w1|] eqn:Hsub; simpl in Hrun; [|done].
      simpl. destruct (bool_decide (barrier_of sub = Some this)) eqn:Hon.
      * apply bool_decide_eq_true in Hon.
        pose proof (submit_on_view this sub w w1 v Hon Hv Hsub) as Hv1.
        assert (Hc1 : (0 ≤ wrap (v_count v + 1) < UINT_MODULUS)%Z)
          by apply wrap_range.
        destruct (λ Hc', IH Hnt s s' w1 w' _ Hc' Hv1 Hrun)
          as (-> & v' & Hv' & Hr & Hcnt & Hle & Heq & Hp & Hw & Hre); [exact Hc1|].
        simpl in *. split; [done|]. exists v'. split_and!; try done; try lia.
        rewrite Hcnt, wrap_wrap_add. f_equal. lia.
      * apply bool_decide_eq_false in Hon.
        pose proof (submit_off_view this sub w w1 v Hon Hv Hsub) as Hv1.
        destruct (IH Hnt s s' w1 w' v Hc Hv1 Hrun)
          as (-> & v' & Hv' & Hr & Hcnt & Hle & Heq & Hp & Hw & Hre).
        split; [done|]. exists v'. split_and!; try done; lia.
    + destruct (executor_step k w) as [w1|] eqn:Hrt; simpl in Hrun; [|done].
      destruct (executor_step_view this k w w1 v Hv Hrt) as (t & _ & Ht).
      destruct (decide _).
      * destruct Ht as (n & Hn & Hv1).
        destruct (λ Hc', IH Hnt s s' w1 w' _ Hc' Hv1 Hrun)
          as (-> & v' & Hv' & Hr & Hcnt & Hle & Heq & Hp & Hw & Hre); [exact Hc|].
        simpl in *. split; [done|]. exists v'.
        destruct (Z.ltb_spec (Z.of_nat (v_sem v)) SEM_VALUE_MAX) as [Hlt|Hge];
          split_and!; try done; lia.
      * destruct (IH Hnt s s' w1 w' v Hc Ht Hrun)
          as (-> & v' & Hv' & Hr & Hcnt & Hle & Heq & Hp & Hw & Hre).
        split; [done|]. exists v'. split_and!; try done; lia.
Qed.

(** [n] submissions of one callable in a row against a live barrier. *)
Lemma posix_submits this (f : U → outcome U) (n : nat) :
  ∀ (s : T) w v,
    (0 ≤ v_count v < UINT_MODULUS)%Z →
    view_of this w = Some v →
    ∃ w', posix_run thr (replicate n (LSubmit (SubSb this f))) (s, w) = Some (s, w')
          ∧ pool w' = pool w ++ replicate n (contended_caller (ScopeWaiter this) f)
          ∧ view_of this w' =
              Some (View (v_sem v) (wrap (v_count v + Z.of_nat n)) (v_out v + n)
                      (v_reg v + n) (v_post v) (v_wait v) (v_reset v)).
Proof.
  induction n as [|n IH]; intros s w v Hc Hv.
  - exists w. simpl. rewrite app_nil_r, Z.add_0_r, wrap_small by done.
    rewrite !Nat.add_0_r. split_and!; try done. by destruct v.
  - destruct (view_of_Some this w v Hv) as (b & Hb & _).
    assert (Hpool : ∃ w1, submit_parallel (SubSb this f) w = Some w1
                          ∧ pool w1 = pool w ++ [contended_caller (ScopeWaiter this) f]).
    { simpl. unfold parallel_sb. rewrite (register_lock_Some _ _ _ Hb). simpl.
      eexists. split; [reflexivity|]. done. }
    destruct Hpool as (w1 & Hsub & Hp1).
    pose proof (submit_on_view this (SubSb this f) w w1 v eq_refl Hv Hsub) as Hv1.
    destruct (λ Hc', IH s w1 _ Hc' Hv1) as (w' & Hrun & Hp' & Hv');
      [apply wrap_range|].
    exists w'. split_and!.
    + cbn [replicate posix_run posix_step fst snd]. rewrite Hsub. exact Hrun.
    + rewrite Hp', Hp1, <- app_assoc. done.
    + rewrite Hv'. simpl. rewrite wrap_wrap_add.
      repeat (f_equal; try lia).
Qed.

(** The executor runs, one after the other, [n] pooled tasks that hold a
    token of [this] and return: the semaphore rises to [SEM_VALUE_MAX] and
    stays there, whatever the number of [sem_post]s. *)
Lemma posix_runs_saturate this (f : U → outcome U) :
  (∀ u, has_raised (f u) = false) →
  ∀ (n : nat) (s : T) w v,
    view_of this w = Some v →
    pool w = replicate n (contended_caller (ScopeWaiter this) f) →
    (Z.of_nat (v_sem v) ≤ SEM_VALUE_MAX)%Z →
    ∃ w', posix_run thr (replicate n (LRun 0)) (s, w) = Some (s, w')
          ∧ pool w' = []
          ∧ view_of this w' =
              Some (View (Z.to_nat (Z.min (Z.of_nat (v_sem v) + Z.of_nat n)
                                      SEM_VALUE_MAX))
                      (v_count v) 0 (v_reg v) (v_post v + n) (v_wait v)
                      (v_reset v)).
Proof.
  intros Hf. induction n as [|n IH]; intros s w v Hv Hpool Hsem.
  - exists w. simpl. split_and!; try done.
    rewrite Hv. destruct (view_of_Some this w v Hv) as (b & Hb & ->). simpl in *.
    rewrite Hpool. simpl. rewrite outstanding_nil.
    repeat (f_equal; try lia).
  - destruct (view_of_Some this w v Hv) as (b & Hb & Hvb).
    assert (Hex : ∃ w1, executor_step 0 w = Some w1) .
    { unfold executor_step. rewrite Hpool. simpl.
      specialize (Hf (user w)). destruct (f (user w)) as [u'|u']; [|done].
      unfold task_release. simpl. unfold scope_waiter_release. simpl.
      rewrite Hb. simpl. by eexists. }
    destruct Hex as (w1 & Hw1).
    destruct (executor_step_view this 0 w w1 v Hv Hw1) as (t & Ht & Hview).
    rewrite Hpool in Ht. simpl in Ht. injection Ht as <-.
    rewrite decide_True in Hview by done.
    destruct Hview as (m & Hm & Hv1).
    assert (Hp1 : pool w1 = replicate n (contended_caller (ScopeWaiter this) f)).
    { unfold executor_step in Hw1. rewrite Hpool in Hw1. simpl in Hw1.
      destruct (f (user w)) as [u'|u']; [|done].
      apply task_release_pool in Hw1. by rewrite Hw1. }
    destruct (IH s w1 _ Hv1 Hp1) as (w' & Hrun & Hp' & Hv').
    { simpl. destruct (Z.ltb_spec (Z.of_nat (v_sem v)) SEM_VALUE_MAX); lia. }
    exists w'. split_and!.
    + simpl. rewrite Hw1. simpl. exact Hrun.
    + exact Hp'.
    + rewrite Hv'. simpl.
      destruct (Z.ltb_spec (Z.of_nat (v_sem v)) SEM_VALUE_MAX);
        repeat (f_equal; try lia).
Qed.
End PosixCohort.

(** ** The destructor over the POSIX semaphore *)

Section PosixDestructor.
Context {U A : Type}.
Implicit Types (w : world U A) (v : view) (p : pc) (d : dpc).

Local Abbreviation waiter this := (@wait_for_all_step U A this).
Local Abbreviation dtor this := (@synched_destroy_step U A this).

Lemma posix_dtor_inv_step this v0 (l : label U A) d w d' w' :
  (0 ≤ v_count v0 < UINT_MODULUS)%Z →
  registers_on this l = false →
  posix_dtor_inv this v0 d w →
  posix_step (dtor this) l (d, w) = Some (d', w') →
  posix_dtor_inv this v0 d' w'.
Proof.
  intros Hc Hq Hinv Hs.
  assert (l = LThread ∨ l ≠ LThread) as [->|Hl]
    by (destruct l; [right | right | left]; done).
  2: { destruct d as [|p|]; simpl in Hinv.
       - destruct Hinv as (v & Hv & Hinv).
         destruct (posix_inv_env _ this v0 l _ _ w w' Idle v Hq Hl Hv Hinv Hs)
           as (-> & v1 & Hv1 & Hinv1).
         by exists v1.
       - destruct Hinv as (v & Hv & Hinv).
         destruct (posix_inv_env _ this v0 l _ _ w w' p v Hq Hl Hv Hinv Hs)
           as (-> & v1 & Hv1 & Hinv1).
         by exists v1.
       - assert (d' = DGone) as ->; [|done].
         destruct l as [sub|k|]; [| |done]; simpl in Hs.
         + destruct (submit_parallel sub w); simpl in Hs; [|done].
           by injection Hs as <- <-.
         + destruct (executor_step k w); simpl in Hs; [|done].
           by injection Hs as <- <-. }
  simpl in Hs. destruct d as [|p|]; [| |done].
  - injection Hs as <- <-. exact Hinv.
  - destruct (decide (p = Done)) as [->|Hp].
    + simpl in Hs. by injection Hs as <- <-.
    + rewrite dtor_step_waiting in Hs by done.
      destruct (wait_for_all_step this (p, w)) as [[p1 w1]|] eqn:Hw;
        simpl in Hs; [|done].
      injection Hs as <- <-. destruct Hinv as (v & Hv & Hinv).
      destruct (posix_inv_step this v0 LThread p w p1 w1 v Hc Hq Hv Hinv Hw)
        as (v1 & Hv1 & Hinv1).
      by exists v1.
Qed.

Lemma posix_dtor_inv_run this v0 (ls : list (label U A)) :
  (0 ≤ v_count v0 < UINT_MODULUS)%Z →
  quiet this ls = true →
  ∀ d w d' w',
    posix_dtor_inv this v0 d w →
    posix_run (dtor this) ls (d, w) = Some (d', w') →
    posix_dtor_inv this v0 d' w'.
Proof.
  intros Hc. induction ls as [|l ls IH]; intros Hq d w d' w' Hinv Hrun.
  - simpl in Hrun. by injection Hrun as <- <-.
  - apply quiet_cons in Hq as [Hl Hq]. simpl in Hrun.
    destruct (posix_step (dtor this) l (d, w)) as [[d1 w1]|] eqn:Hs;
      simpl in Hrun; [|done].
    eapply IH; [done| |done].
    by eapply posix_dtor_inv_step.
Qed.

(** Inside the destructor of a balanced barrier whose count fits in the
    semaphore: once the pool holds no token of it the destructor, left to
    run, releases the object. *)
Lemma posix_dtor_finishes this v0 p w v :
  (0 ≤ v_count v0 ≤ SEM_VALUE_MAX)%Z →
  v_count v0 = Z.of_nat (v_sem v0 + v_out v0) →
  view_of this w = Some v →
  posix_inv v0 p v →
  v_out v = 0 →
  ∃ n w3, posix_run (dtor this) (replicate n LThread) (DWaiting p, w)
            = Some (DGone, w3).
Proof.
  intros Hc Hbal Hv Hinv Hout.
  destruct (posix_inv_finishes this v0 p w v Hc Hbal Hv Hinv Hout) as (n & w3 & Hr).
  rewrite posix_run_thread_only in Hr.
  exists (S n). eexists.
  rewrite posix_run_thread_only.
  rewrite <- replicate_snoc, sys_run_app, (dtor_simulates this n p w w3 Hr).
  simpl. reflexivity.
Qed.

(** The destructor of a barrier whose counter is zero completes in five
    steps of its own, whatever the pool holds. *)
Lemma dtor_zero_count this w b :
  heap w !! this = Some b →
  m_count b = 0%Z →
  posix_run (dtor this) (replicate 5 LThread) (DLive, w)
    = Some (DGone,
            World (delete this (<[this := Synched (m_sem b) 0]> (heap w)))
              (pool w) (user w) (log w ++ [EvReset this])).
Proof.
  intros Hb Hz. rewrite posix_run_thread_only.
  assert (H0 : synched_destroy_step this (DLive, w) = Some (DWaiting Idle, w))
    by done.
  rewrite (sys_run_thread _ 4 _ _ H0).
  assert (H1 : synched_destroy_step this (DWaiting Idle, w)
               = Some (DWaiting (Test 0), w)) by done.
  rewrite (sys_run_thread _ 3 _ _ H1).
  assert (H2 : synched_destroy_step this (DWaiting (Test 0), w)
               = Some (DWaiting Reset, w)).
  { rewrite dtor_step_waiting by done.
    rewrite (step_test this 0 w b Hb), Hz. done. }
  rewrite (sys_run_thread _ 2 _ _ H2).
  assert (H3 : synched_destroy_step this (DWaiting Reset, w)
               = Some (DWaiting Done,
                       emit (EvReset this)
                         (set_barrier this (Synched (m_sem b) 0) w))).
  { rewrite dtor_step_waiting by done. by rewrite (step_reset this w b Hb). }
  rewrite (sys_run_thread _ 1 _ _ H3).
  reflexivity.
Qed.

(** With fewer signals in the semaphore than the counter asks for, and
    nobody to signal, the waiting thread is never done. *)
Lemma posix_wait_alone_never_done this w b :
  heap w !! this = Some b →
  (0 ≤ m_count b < UINT_MODULUS)%Z →
  (Z.of_nat (m_sem b) < m_count b)%Z →
  ∀ n p' w',
    posix_run (waiter this) (replicate n LThread) (Idle, w) = Some (p', w') →
    p' ≠ Done.
Proof.
  intros Hb Hc Hlt n p' w' Hrun ->.
  pose (v0 := View (m_sem b) (m_count b) (outstanding this (pool w))
                (occ (EvRegister this) (log w)) (occ (EvPost this) (log w))
                (occ (EvWait this) (log w)) (occ (EvReset this) (log w))).
  assert (Hv : view_of this w = Some v0).
  { unfold view_of. by rewrite Hb. }
  rewrite posix_run_thread_only in Hrun.
  destruct (wait_inv_run this v0 (replicate n LThread) Hc
              (quiet_replicate_thread this n) Idle w Done w' v0 Hv
              (wait_inv_init v0) Hrun)
    as (v' & Hv' & Hreg & Hpost & Hsem & Hcnt & Hwait & Hreset).
  destruct (view_of_Some this w' v' Hv') as (b' & Hb' & ->).
  pose proof (thread_run_pool this n Idle w Done w' Hrun) as Hpool.
  unfold v0 in *. simpl in *. rewrite Hpool in Hpost. lia.
Qed.

End PosixDestructor.

Lemma SEM_RANGE_spec : Z.of_nat SEM_RANGE = (SEM_VALUE_MAX + 1)%Z.
Proof. unfold SEM_RANGE. rewrite Z2Nat.id; [done|]. unfold SEM_VALUE_MAX. lia. Qed.

(** ** A wait over the POSIX semaphore that races with registrations *)

Section PosixRace.
Context {U A : Type}.
Implicit Types (w : world U A) (v : view) (p : pc).









End PosixRace.

(** ** Cohorts that exceed the semaphore or the counter *)

Section Limits.
Context {U A : Type}.
Implicit Types (w : world U A) (v : view).

Local Abbreviation waiter this := (@wait_for_all_step U A this).
Local Abbreviation dtor this := (@synched_destroy_step U A this).

(** [SEM_VALUE_MAX + 1] tasks are registered against a barrier that holds
    nothing, and all of them run and return before anybody waits: every
    token has posted, the semaphore holds [SEM_VALUE_MAX] signals, one
    signal is lost, and a wait that starts then never returns. *)
Lemma overflow_cohort_blocks this (f : U → outcome U) (n : nat) w v :
  (∀ u, has_raised (f u) = false) →
  Z.of_nat n = (SEM_VALUE_MAX + 1)%Z →
  view_of this w = Some v →
  pool w = [] → v_sem v = 0 → v_count v = 0%Z →
  ∃ w2 w3,
    posix_run (waiter this) (replicate n (LSubmit (SubSb this f))) (Idle, w)
      = Some (Idle, w2)
    ∧ heap w2 !! this = Some (Synched 0 (Z.of_nat n))
    ∧ outstanding this (pool w2) = n
    ∧ posix_run (waiter this) (replicate n (LRun 0)) (Idle, w2) = Some (Idle, w3)
    ∧ outstanding this (pool w3) = 0
    ∧ occ (EvPost this) (log w3) = v_post v + n
    ∧ heap w3 !! this = Some (Synched (Z.to_nat SEM_VALUE_MAX) (Z.of_nat n))
    ∧ ∀ m p' w',
        posix_run (waiter this) (replicate m LThread) (Idle, w3) = Some (p', w') →
        p' ≠ Done.
Proof.
  intros Hf Hn Hv Hpool Hsem Hcnt.
  assert (Hmax : (0 < SEM_VALUE_MAX < UINT_MODULUS - 1)%Z)
    by (unfold SEM_VALUE_MAX, UINT_MODULUS; lia).
  destruct (posix_submits (waiter this) this f n Idle w v) as (w2 & Hrun2 & Hp2 & Hv2);
    [rewrite Hcnt; unfold UINT_MODULUS; lia | done |].
  rewrite Hpool in Hp2. rewrite app_nil_l in Hp2.
  rewrite Hcnt, Hsem, Z.add_0_l, wrap_small in Hv2 by lia.
  destruct (posix_runs_saturate (waiter this) this f Hf n Idle w2 _ Hv2 Hp2)
    as (w3 & Hrun3 & Hp3 & Hv3); [simpl; lia|].
  destruct (view_of_Some this w2 _ Hv2) as (b2 & Hb2 & Hvb2).
  destruct (view_of_Some this w3 _ Hv3) as (b3 & Hb3 & Hvb3).
  injection Hvb2 as Hs2 Hc2 Ho2 _ _ _ _.
  injection Hvb3 as Hs3 Hc3 Ho3 _ Hpost3 _ _.
  assert (Hs3' : m_sem b3 = Z.to_nat SEM_VALUE_MAX).
  { rewrite <- Hs3. f_equal. cbn [v_sem]. lia. }
  exists w2, w3. split_and!; try done.
  - rewrite Hb2. f_equal. destruct b2 as [s2 c2]. simpl in Hs2, Hc2. congruence.
  - destruct (view_of_Some this w v Hv) as (b & Hb & ->). simpl in Ho2.
    rewrite Hpool, outstanding_nil in Ho2. lia.
  - rewrite Hb3. f_equal. destruct b3 as [s3 c3]. simpl in Hs3', Hc3. congruence.
  - apply (posix_wait_alone_never_done this w3 b3 Hb3); rewrite <- Hc3, ?Hs3'; lia.
Qed.

(** A multiple of [2^32] registrations leaves the counter where it was: the
    destructor of a barrier whose counter is back at zero completes at
    once, with every token still in the pool. *)
Lemma wrapped_cohort_destroyed this (f : U → outcome U) (n : nat) w v :
  view_of this w = Some v →
  (0 ≤ v_count v < UINT_MODULUS)%Z →
  wrap (v_count v + Z.of_nat n) = 0%Z →
  ∃ w2 w3,
    posix_run (dtor this) (replicate n (LSubmit (SubSb this f))) (DLive, w)
      = Some (DLive, w2)
    ∧ posix_run (dtor this) (replicate 5 LThread) (DLive, w2) = Some (DGone, w3)
    ∧ heap w3 !! this = None
    ∧ outstanding this (pool w3) = v_out v + n
    ∧ occ (EvPost this) (log w3) = v_post v.
Proof.
  intros Hv Hc Hwrap.
  destruct (posix_submits (dtor this) this f n DLive w v Hc Hv)
    as (w2 & Hrun2 & Hp2 & Hv2).
  rewrite Hwrap in Hv2.
  destruct (view_of_Some this w2 _ Hv2) as (b2 & Hb2 & Hvb2).
  injection Hvb2 as Hs2 Hc2 Ho2 _ Hpost2 _ _.
  exists w2. eexists. split; [exact Hrun2|]. split.
  - apply (dtor_zero_count this w2 b2 Hb2). done.
  - simpl. split_and!.
    + apply lookup_delete_eq.
    + done.
    + by occ_norm.
Qed.

End Limits.


(** ** The wait and its cohort, within the capacity of the semaphore *)

(** C1 (amended).  Let [N ≤ SEM_VALUE_MAX] ([2^31 - 1]) tasks be submitted
    against a barrier that was just constructed, in any interleaving with
    the executor, and let a wait start afterwards, at any moment, while
    nobody registers any more.  Whenever the wait has returned, every one of
    the [N] tokens has left the pool and has signalled, and the wait has
    consumed exactly [N] signals; and as soon as all [N] have signalled,
    the waiting thread, left to run, returns. *)
Theorem C1_wait_returns_when_all_signalled :
  ∀ (U A : Type) (this : loc) (w0 w2 w3 : world U A)
    (ls1 ls2 : list (label U A)) (N : nat) (p : pc),
    outstanding this (pool w0) = 0 →
    no_thread ls1 = true →
    registrations this ls1 = N →
    (Z.of_nat N ≤ SEM_VALUE_MAX)%Z →
    posix_run (wait_for_all_step this) ls1 (Idle, synched_new this w0)
      = Some (Idle, w2) →
    quiet this ls2 = true →
    posix_run (wait_for_all_step this) ls2 (Idle, w2) = Some (p, w3) →
    (p = Done →
       outstanding this (pool w3) = 0
       ∧ occ (EvPost this) (log w3) = occ (EvPost this) (log w0) + N
       ∧ occ (EvWait this) (log w3) = occ (EvWait this) (log w0) + N)
    ∧ (outstanding this (pool w3) = 0 →
       ∃ n w4, posix_run (wait_for_all_step this) (replicate n LThread) (p, w3)
                 = Some (Done, w4)).
Proof.
  intros U A this w0 w2 w3 ls1 ls2 N p Hfresh Hnt HN Hcap Hrun1 Hq Hrun2.
  assert (Hmax : (SEM_VALUE_MAX < UINT_MODULUS)%Z)
    by (unfold SEM_VALUE_MAX, UINT_MODULUS; lia).
  destruct (λ Hc, posix_cohort_run (wait_for_all_step this) this ls1 Hnt Idle Idle
              (synched_new this w0) w2 _ Hc (view_of_new this w0) Hrun1)
    as (_ & v2 & Hv2 & Hreg & Hcnt & Hle & Heq & Hpost & Hwait & Hreset).
  { simpl. unfold UINT_MODULUS. lia. }
  simpl in Hreg, Hcnt, Hle, Heq, Hpost, Hwait, Hreset.
  rewrite HN in *. rewrite Hfresh in *.
  rewrite wrap_small in Hcnt by lia.
  assert (Hsem : v_sem v2 + occ (EvPost this) (log w0) = v_post v2)
    by (apply Heq; lia).
  destruct (posix_wait_balanced this ls2 w2 v2 p w3)
    as (v3 & Hv3 & Hinv & Hdone & Hlive); try done; [lia | lia |].
  destruct (view_of_Some this w3 v3 Hv3) as (b3 & Hb3 & Hvb3).
  assert (Hout3 : v_out v3 = outstanding this (pool w3)) by (by subst v3).
  assert (Hp3 : v_post v3 = occ (EvPost this) (log w3)) by (by subst v3).
  assert (Hw3 : v_wait v3 = occ (EvWait this) (log w3)) by (by subst v3).
  rewrite <- Hout3, <- Hp3, <- Hw3. split.
  - intros ->. destruct (Hdone eq_refl) as [Ho Hs].
    destruct Hinv as (Hreg3 & Hpost3 & Hle3 & Heq3 & Hmono3 & Hcnt3 & Hwt3 & Hr3). lia.
  - apply Hlive; lia.
Qed.

Lemma C1_wait_returns_when_all_signalled_witness :
  (outstanding 1%positive (pool w_two_done) = 0
   ∧ occ (EvPost 1%positive) (log w_two_done) = 2
   ∧ occ (EvWait 1%positive) (log w_two_done) = 2)
  ∧ ∃ n w4, posix_run (wait_for_all_step 1%positive) (replicate n LThread)
              (Done, w_two_done) = Some (Done, w4).
Proof.
  destruct (C1_wait_returns_when_all_signalled nat nat 1%positive
              w_empty w_two w_two_done two_tasks two_tasks_wait 2 Done)
    as [Hdone Hlive].
  - reflexivity.
  - reflexivity.
  - reflexivity.
  - unfold SEM_VALUE_MAX. lia.
  - vm_compute. reflexivity.
  - reflexivity.
  - vm_compute. reflexivity.
  - split; [exact (Hdone eq_refl) | apply Hlive; reflexivity].
Defined.

(** C1, as stated, fails for [N = 2^31]: that many tasks are registered
    against a fresh barrier and all of them run to their end, so that every
    token has signalled.  The semaphore holds [2^31 - 1] signals, the last
    [sem_post] having failed unnoticed, while the counter asks for [2^31]:
    a wait that starts then never returns. *)
Lemma C1_counterexample :
  ∃ w2 w3 : world nat nat,
    posix_run (wait_for_all_step 1%positive)
        (replicate SEM_RANGE (LSubmit (SubSb 1%positive incr))) (Idle, w_fresh)
      = Some (Idle, w2)
    ∧ posix_run (wait_for_all_step 1%positive) (replicate SEM_RANGE (LRun 0))
        (Idle, w2) = Some (Idle, w3)
    ∧ outstanding 1%positive (pool w3) = 0
    ∧ occ (EvPost 1%positive) (log w3) = SEM_RANGE
    ∧ (∃ b3, heap w3 !! 1%positive = Some b3
             ∧ Z.of_nat (m_sem b3) = 2147483647%Z
             ∧ m_count b3 = 2147483648%Z)
    ∧ ∀ m p' w',
        posix_run (wait_for_all_step 1%positive) (replicate m LThread) (Idle, w3)
          = Some (p', w') →
        p' ≠ Done.
Proof.
  destruct (overflow_cohort_blocks 1%positive incr SEM_RANGE w_fresh
              (View 0 0 0 0 0 0 0) (λ _, eq_refl) SEM_RANGE_spec eq_refl eq_refl
              eq_refl eq_refl)
    as (w2 & w3 & H1 & _ & _ & H2 & H3 & H4 & H5 & H6).
  exists w2, w3.
  split_and!; [exact H1 | exact H2 | exact H3 | | | exact H6].
  { rewrite H4. apply Nat.add_0_l. }
  eexists. split; [exact H5|]. cbn [m_sem m_count]. split.
  - rewrite Z2Nat.id; [reflexivity|]. unfold SEM_VALUE_MAX. lia.
  - rewrite SEM_RANGE_spec. reflexivity.
Qed.

(** C8 (amended).  Let the counter of a barrier be at most [SEM_VALUE_MAX]
    and stand for its cohort (the signals in the semaphore plus the tokens
    still pooled), and let a wait run while nobody registers.  Along every
    schedule, however long: the wait has returned only if every counted
    token has signalled; as long as a token is unreleased it has not
    returned; once all have signalled the thread, left to run, returns; and
    the thread has no other outcome, its step is undefined only when it has
    returned or is blocked in [sem_wait] on an empty semaphore. *)
Theorem C8_wait_blocks_until_all_signal :
  ∀ (U A : Type) (this : loc) (w w' : world U A) (b : synched_t)
    (ls : list (label U A)) (p' : pc),
    heap w !! this = Some b →
    (0 ≤ m_count b ≤ SEM_VALUE_MAX)%Z →
    m_count b = Z.of_nat (m_sem b + outstanding this (pool w)) →
    quiet this ls = true →
    posix_run (wait_for_all_step this) ls (Idle, w) = Some (p', w') →
    (p' = Done → outstanding this (pool w') = 0)
    ∧ (0 < outstanding this (pool w') → p' ≠ Done)
    ∧ (outstanding this (pool w') = 0 →
       ∃ n w'', posix_run (wait_for_all_step this) (replicate n LThread) (p', w')
                  = Some (Done, w''))
    ∧ (∃ b', heap w' !! this = Some b'
             ∧ (wait_for_all_step this (p', w') = None
                ↔ p' = Done ∨ (∃ i, p' = Wait i) ∧ m_sem b' = 0)).
Proof.
  intros U A this w w' b ls p' Hb Hc Hbal Hq Hrun.
  assert (Hmax : (SEM_VALUE_MAX < UINT_MODULUS)%Z)
    by (unfold SEM_VALUE_MAX, UINT_MODULUS; lia).
  pose (v0 := View (m_sem b) (m_count b) (outstanding this (pool w))
                (occ (EvRegister this) (log w)) (occ (EvPost this) (log w))
                (occ (EvWait this) (log w)) (occ (EvReset this) (log w))).
  assert (Hv : view_of this w = Some v0).
  { unfold view_of. by rewrite Hb. }
  destruct (posix_wait_balanced this ls w v0 p' w') as (v' & Hv' & Hinv & Hdone & Hlive);
    try done; [simpl; lia | simpl; lia |].
  destruct (view_of_Some this w' v' Hv') as (b' & Hb' & Hvb).
  assert (Hout : v_out v' = outstanding this (pool w')) by (by subst v').
  rewrite <- Hout. split_and!.
  - intros Hp. by destruct (Hdone Hp).
  - intros Hpos Hp. destruct (Hdone Hp). lia.
  - apply Hlive; simpl; [done | lia].
  - exists b'. split; [done|]. by apply wait_step_None.
Qed.

Lemma C8_wait_blocks_until_all_signal_witness :
  (outstanding 1%positive (pool w_two_done) = 0
   ∧ ∃ n w'', posix_run (wait_for_all_step 1%positive) (replicate n LThread)
                (Done, w_two_done) = Some (Done, w''))
  ∧ Wait 1 ≠ Done.
Proof.
  split.
  - destruct (C8_wait_blocks_until_all_signal nat nat 1%positive w_two w_two_done
                (Synched 0 2) two_tasks_wait Done) as (H1 & _ & H3 & _).
    + vm_compute. reflexivity.
    + unfold SEM_VALUE_MAX. simpl. lia.
    + reflexivity.
    + reflexivity.
    + vm_compute. reflexivity.
    + split; [exact (H1 eq_refl) | exact (H3 (H1 eq_refl))].
  - destruct (C8_wait_blocks_until_all_signal nat nat 1%positive w_two w_two_blocked
                (Synched 0 2) two_tasks_blocked (Wait 1)) as (_ & H2 & _).
    + vm_compute. reflexivity.
    + unfold SEM_VALUE_MAX. simpl. lia.
    + reflexivity.
    + reflexivity.
    + vm_compute. reflexivity.
    + apply H2. vm_compute. lia.
Defined.

(** C8, as stated, fails in three ways.  A task registered after the last
    test of the loop and before the reset is counted in [m_count] and never
    waited for: the wait returns while its token is unreleased.  The next
    wait on that barrier, during which nobody registers, returns at once
    with that token still unreleased, the counter no longer standing for
    it.  And with [2^31] tokens counted, all of which signal while the
    thread is about to wait, the wait never terminates. *)
Lemma C8_counterexample :
  (posix_run (wait_for_all_step 1%positive) wait_race (Idle, w_one)
     = Some (Done, w_wait_race)
   ∧ occ (EvRegister 1%positive) (log w_wait_race) = 2
   ∧ occ (EvPost 1%positive) (log w_wait_race) = 1
   ∧ outstanding 1%positive (pool w_wait_race) = 1)
  ∧ (heap w_wait_race !! 1%positive = Some (Synched 0 0)
     ∧ posix_run (wait_for_all_step 1%positive) [LThread; LThread; LThread]
         (Idle, w_wait_race) = Some (Done, w_wait_race_again)
     ∧ outstanding 1%positive (pool w_wait_race_again) = 1)
  ∧ ∃ w2 w3 : world nat nat,
      posix_run (wait_for_all_step 1%positive)
          (replicate SEM_RANGE (LSubmit (SubSb 1%positive incr))) (Idle, w_fresh)
        = Some (Idle, w2)
      ∧ (∃ b2, heap w2 !! 1%positive = Some b2
               ∧ m_sem b2 = 0 ∧ m_count b2 = 2147483648%Z)
      ∧ outstanding 1%positive (pool w2) = SEM_RANGE
      ∧ posix_run (wait_for_all_step 1%positive) (replicate SEM_RANGE (LRun 0))
          (Idle, w2) = Some (Idle, w3)
      ∧ outstanding 1%positive (pool w3) = 0
      ∧ ∀ m p' w',
          posix_run (wait_for_all_step 1%positive) (replicate m LThread) (Idle, w3)
            = Some (p', w') →
          p' ≠ Done.
Proof.
  split_and!.
  - vm_compute. reflexivity.
  - vm_compute. reflexivity.
  - vm_compute. reflexivity.
  - vm_compute. reflexivity.
  - vm_compute. reflexivity.
  - vm_compute. reflexivity.
  - vm_compute. reflexivity.
  - destruct (overflow_cohort_blocks 1%positive incr SEM_RANGE w_fresh
                (View 0 0 0 0 0 0 0) (λ _, eq_refl) SEM_RANGE_spec eq_refl eq_refl
                eq_refl eq_refl)
      as (w2 & w3 & H1 & H2 & H3 & H4 & H5 & _ & _ & H6).
    exists w2, w3.
    split_and!; [exact H1 | | exact H3 | exact H4 | exact H5 | exact H6].
    eexists. split; [exact H2|]. cbn [m_sem m_count]. split; [reflexivity|].
    rewrite SEM_RANGE_spec. reflexivity.
Qed.

(** ** Scope exit *)

(** C4 (amended).  The body of [~synched_t()] is one call of
    [wait_for_all()]: the destructor enters it, takes its steps, and
    releases the object only from the point where that call has returned.
    Let the counter of the barrier stand for its cohort (the signals in the
    semaphore plus the tokens still pooled) when it goes out of scope, and
    let nobody register against it any more.  Then, in every schedule, the
    object is released only after exactly one wait has completed and has
    consumed [m_count] signals, and only when no pooled task holds a token
    of it any more; and, the counter being at most [SEM_VALUE_MAX], once
    every token has signalled the destructor, left to run, completes. *)
Theorem C4_destructor_is_one_wait :
  ∀ (U A : Type) (this : loc) (w w' : world U A) (b : synched_t)
    (ls : list (label U A)) (d' : dpc),
    heap w !! this = Some b →
    (0 ≤ m_count b < UINT_MODULUS)%Z →
    m_count b = Z.of_nat (m_sem b + outstanding this (pool w)) →
    quiet this ls = true →
    posix_run (synched_destroy_step this) ls (DLive, w) = Some (d', w') →
    synched_destroy_step this (DLive, w) = Some (DWaiting Idle, w)
    ∧ (∀ p (w1 : world U A),
         p ≠ Done →
         synched_destroy_step this (DWaiting p, w1) =
           (λ s, (DWaiting s.1, s.2)) <$> wait_for_all_step this (p, w1))
    ∧ (∀ w'',
         synched_destroy_step this (d', w') = Some (DGone, w'') →
         d' = DWaiting Done
         ∧ heap w'' !! this = None
         ∧ occ (EvReset this) (log w'') = S (occ (EvReset this) (log w))
         ∧ (Z.of_nat (occ (EvWait this) (log w''))
            = Z.of_nat (occ (EvWait this) (log w)) + m_count b)%Z
         ∧ outstanding this (pool w'') = 0)
    ∧ ((m_count b ≤ SEM_VALUE_MAX)%Z →
       d' ≠ DGone →
       outstanding this (pool w') = 0 →
       ∃ n w3, posix_run (synched_destroy_step this) (replicate n LThread) (d', w')
                 = Some (DGone, w3)).
Proof.
  intros U A this w w' b ls d' Hb Hc Hbal Hq Hrun.
  pose (v0 := View (m_sem b) (m_count b) (outstanding this (pool w))
                (occ (EvRegister this) (log w)) (occ (EvPost this) (log w))
                (occ (EvWait this) (log w)) (occ (EvReset this) (log w))).
  assert (Hv : view_of this w = Some v0).
  { unfold view_of. by rewrite Hb. }
  assert (Hinv : posix_dtor_inv this v0 d' w').
  { eapply (posix_dtor_inv_run this v0 ls Hc Hq DLive w); [|done].
    exists v0. split; [done | apply posix_inv_init]. }
  split_and!.
  - done.
  - intros p w1 Hp. by apply dtor_step_waiting.
  - intros w'' Hstep.
    destruct d' as [|p|]; [done| |done].
    destruct (decide (p = Done)) as [->|Hp].
    + simpl in Hstep. injection Hstep as <-.
      destruct Hinv
        as (v & Hv' & Hreg & Hpost & Hle & Heq & Hmono & Hcnt & Hwait & Hreset).
      destruct (view_of_Some this w' v Hv') as (b' & Hb' & ->).
      subst v0. simpl in *. split_and!; try done; try lia.
      apply lookup_delete_eq.
    + rewrite dtor_step_waiting in Hstep by done.
      destruct (wait_for_all_step this (p, w')) as [[p1 w1]|]; done.
  - intros Hcap Hd Hout.
    assert (∀ p, (∃ v, view_of this w' = Some v ∧ posix_inv v0 p v) →
                 ∃ n w3, posix_run (synched_destroy_step this) (replicate n LThread)
                           (DWaiting p, w') = Some (DGone, w3)) as Hfin.
    { intros p (v & Hv' & Hinv').
      apply (posix_dtor_finishes this v0 p w' v); try done.
      - simpl. lia.
      - destruct (view_of_Some this w' v Hv') as (b' & _ & ->). exact Hout. }
    destruct d' as [|p|]; [| |done].
    + destruct (Hfin Idle Hinv) as (n & w3 & Hr).
      exists (S n), w3. exact Hr.
    + exact (Hfin p Hinv).
Qed.

Lemma C4_destructor_is_one_wait_witness :
  (synched_destroy_step 1%positive (DWaiting Done, w_two_waited)
     = Some (DGone, w_two_gone)
   ∧ heap w_two_gone !! 1%positive = None
   ∧ occ (EvReset 1%positive) (log w_two_gone) = 1
   ∧ outstanding 1%positive (pool w_two_gone) = 0)
  ∧ ∃ n w3, posix_run (synched_destroy_step 1%positive) (replicate n LThread)
              (DWaiting Done, w_two_waited) = Some (DGone, w3).
Proof.
  destruct (C4_destructor_is_one_wait nat nat 1%positive w_two w_two_waited
              (Synched 0 2) two_tasks_scope_exit (DWaiting Done))
    as (_ & _ & Hexit & Hlive).
  - vm_compute. reflexivity.
  - unfold UINT_MODULUS. simpl. lia.
  - reflexivity.
  - reflexivity.
  - vm_compute. reflexivity.
  - assert (Hstep : synched_destroy_step 1%positive (DWaiting Done, w_two_waited)
                     = Some (DGone, w_two_gone)) by (vm_compute; reflexivity).
    destruct (Hexit w_two_gone Hstep) as (_ & Hh & Hr & _ & Hout).
    split.
    + split_and!; [exact Hstep | exact Hh | exact Hr | exact Hout].
    + apply Hlive; [unfold SEM_VALUE_MAX; simpl; lia | discriminate | reflexivity].
Defined.

(** C4, as stated, fails in two ways.  A barrier with one registered task
    goes out of scope; the task runs, and a second task is registered
    after the last test of the wait inside the destructor: the destructor
    completes and the barrier is gone while the second token, registered
    and never signalled, is still pooled.  And after [2^32] registrations
    against a fresh barrier the counter is [0] again: the destructor
    completes in five steps of its own with all the tokens pooled and no
    signal sent. *)
Lemma C4_counterexample :
  (posix_run (synched_destroy_step 1%positive) scope_exit_race (DLive, w_one)
     = Some (DGone, w_exit_race)
   ∧ heap w_exit_race !! 1%positive = None
   ∧ occ (EvRegister 1%positive) (log w_exit_race) = 2
   ∧ occ (EvPost 1%positive) (log w_exit_race) = 1
   ∧ outstanding 1%positive (pool w_exit_race) = 1)
  ∧ ∃ w2 w3 : world nat nat,
      posix_run (synched_destroy_step 1%positive)
          (replicate UINT_RANGE (LSubmit (SubSb 1%positive incr))) (DLive, w_fresh)
        = Some (DLive, w2)
      ∧ posix_run (synched_destroy_step 1%positive) (replicate 5 LThread)
          (DLive, w2) = Some (DGone, w3)
      ∧ heap w3 !! 1%positive = None
      ∧ outstanding 1%positive (pool w3) = UINT_RANGE
      ∧ occ (EvPost 1%positive) (log w3) = 0.
Proof.
  split_and!.
  - vm_compute. reflexivity.
  - vm_compute. reflexivity.
  - vm_compute. reflexivity.
  - vm_compute. reflexivity.
  - vm_compute. reflexivity.
  - destruct (wrapped_cohort_destroyed 1%positive incr UINT_RANGE w_fresh
                (View 0 0 0 0 0 0 0) eq_refl)
      as (w2 & w3 & H1 & H2 & H3 & H4 & H5).
    + unfold UINT_MODULUS. simpl. lia.
    + exact UINT_RANGE_wraps.
    + exists w2, w3. split_and!; [exact H1 | exact H2 | exact H3 | | exact H5].
      rewrite H4. apply Nat.add_0_l.
Qed.

(** ** Submission, and the wait that follows *)




(** ** The token and the wrapper that holds it *)




(** ** The counter while nobody waits *)

(** X12.  While the owner of a barrier neither waits nor destroys it, [n]
    tracked submissions against it, in any interleaving with other
    submissions and with the executor, leave its counter at
    [(m_count + n) mod 2^32]; the signals in its semaphore and its pooled
    tokens together have grown by at most [n], and by exactly [n] when the
    signals and tokens it had, with the [n] new ones, are at most
    [SEM_VALUE_MAX]; and no [sem_wait] or reset has happened on it. *)
Theorem X12_counter_after_registrations :
  ∀ (U A : Type) (this : loc) (w w' : world U A) (b : synched_t)
    (ls : list (label U A)) (p p' : pc),
    heap w !! this = Some b →
    (0 ≤ m_count b < UINT_MODULUS)%Z →
    no_thread ls = true →
    posix_run (wait_for_all_step this) ls (p, w) = Some (p', w') →
    p' = p
    ∧ ∃ b', heap w' !! this = Some b'
            ∧ m_count b' = wrap (m_count b + Z.of_nat (registrations this ls))
            ∧ m_sem b' + outstanding this (pool w')
              ≤ m_sem b + outstanding this (pool w) + registrations this ls
            ∧ ((Z.of_nat (m_sem b + outstanding this (pool w)
                          + registrations this ls) ≤ SEM_VALUE_MAX)%Z →
               m_sem b' + outstanding this (pool w')
               = m_sem b + outstanding this (pool w) + registrations this ls)
            ∧ occ (EvWait this) (log w') = occ (EvWait this) (log w)
            ∧ occ (EvReset this) (log w') = occ (EvReset this) (log w).
Proof.
  intros U A this w w' b ls p p' Hb Hc Hnt Hrun.
  pose (v0 := View (m_sem b) (m_count b) (outstanding this (pool w))
                (occ (EvRegister this) (log w)) (occ (EvPost this) (log w))
                (occ (EvWait this) (log w)) (occ (EvReset this) (log w))).
  assert (Hv : view_of this w = Some v0).
  { unfold view_of. by rewrite Hb. }
  destruct (posix_cohort_run (wait_for_all_step this) this ls Hnt p p' w w' v0
              Hc Hv Hrun)
    as (-> & v' & Hv' & Hreg & Hcnt & Hle & Heq & Hpost & Hwait & Hreset).
  split; [done|].
  destruct (view_of_Some this w' v' Hv') as (b' & Hb' & ->).
  exists b'. unfold v0 in *. simpl in *. split_and!; try done; lia.
Qed.

Lemma X12_counter_after_registrations_witness :
  ∃ b', heap w_two !! 1%positive = Some b'
        ∧ m_count b' = 2%Z
        ∧ m_sem b' + outstanding 1%positive (pool w_two) = 2.
Proof.
  destruct (X12_counter_after_registrations nat nat 1%positive w_fresh w_two
              (Synched 0 0) two_tasks Idle Idle)
    as (_ & b' & Hb' & H1 & _ & H2 & _).
  - reflexivity.
  - unfold UINT_MODULUS. simpl. lia.
  - reflexivity.
  - vm_compute. reflexivity.
  - exists b'. split_and!; [exact Hb' | exact H1 |].
    apply H2. unfold SEM_VALUE_MAX. vm_compute. discriminate.
Defined.
